(** * utils.py: label alignment ([cluster_acc]), its caller [eva], and the
    soft-assignment pair ([q_distribute], [target_distribution]).

    The label arrays of [cluster_acc] are lists of integers, the call is a
    state-passing function that hands back the final contents of the
    predicted-label array next to its outcome.  The two external
    collaborators of [cluster_acc] are interfaces: the iteration order of a
    Python [set] and the assignment solver [Munkres.compute]; the metrics of
    [sklearn] that [cluster_acc] calls are written out over exact rationals,
    the two that only [eva] calls are an interface as well.  The tensor
    functions are embedded over IEEE-754 values ([spec_float]). *)

From Stdlib Require Import ZArith QArith Qminmax Lia.
From Stdlib Require Import SpecFloat.
From stdpp Require Import base strings list gmap sets sorting.

Local Open Scope Z_scope.

(** * The model *)

(** ** Outcomes of a Python call *)

Inductive exn : Type :=
| ValueError
| IndexError
| OverflowError
| AssertionError
| RuntimeError.

(** A call returns a value, returns [None], or raises. *)
Inductive outcome (A : Type) : Type :=
| Return (a : A)
| ReturnNone
| Raise (e : exn).
Arguments Return {A} a.
Arguments ReturnNone {A}.
Arguments Raise {A} e.

(** What one call of [cluster_acc] leaves behind: its outcome, the lines it
    printed, and the contents of the caller's [y_pred] array afterwards. *)
Record run : Type := mkRun {
  result : outcome (Q * Q);
  printed : list string;
  y_pred_after : list Z
}.

(** ** Interfaces of the external collaborators *)

(** [list(set(a))]: some enumeration of the distinct elements of [a]. *)
Class PySet : Type := set_list : list Z → list Z.

Class PySetLaws (S : PySet) : Prop := {
  set_list_NoDup : ∀ a, NoDup (set_list a);
  set_list_elem : ∀ a x, x ∈ set_list a ↔ x ∈ a
}.

(** [Munkres().compute(cost)]: the list of (row, column) pairs of an
    assignment. *)
Class Solver : Type := compute : list (list Z) → list (nat * nat).

(** The entry of a matrix, [0] outside of it. *)
Definition entry (M : list (list Z)) (i j : nat) : Z :=
  default 0 (M !! i ≫= λ r, r !! j).

(** The total cost of a list of (row, column) pairs. *)
Definition total_cost (M : list (list Z)) (ps : list (nat * nat)) : Z :=
  foldr (λ p s, entry M p.1 p.2 + s) 0 ps.

Definition square (M : list (list Z)) : Prop :=
  Forall (λ r, length r = length M) M.

(** A perfect matching of a [k] by [k] matrix, in any order. *)
Definition perfect_matching (k : nat) (ps : list (nat * nat)) : Prop :=
  ps.*1 ≡ₚ seq 0 k ∧ ps.*2 ≡ₚ seq 0 k.

(** The solver's contract: on a square matrix it lists one pair per row, in
    row order, the columns form a permutation, and no perfect matching is
    cheaper. *)
Class SolverLaws (S : Solver) : Prop := {
  compute_rows : ∀ M, square M → (compute M).*1 = seq 0 (length M);
  compute_cols : ∀ M, square M → (compute M).*2 ≡ₚ seq 0 (length M);
  compute_min : ∀ M ps, square M → perfect_matching (length M) ps →
    total_cost M (compute M) ≤ total_cost M ps
}.

(** ** numpy and sklearn *)

(** [np.min(a)]; a zero-size array has no minimum ([ValueError]). *)
Definition np_min (a : list Z) : option Z :=
  match a with
  | [] => None
  | x :: r => Some (foldl Z.min x r)
  end.

(** The integer type of the caller's [y_pred] array: [fits x] tells
    whether an element of the array can hold [x]. *)
Class Dtype : Type := fits : Z → bool.

Definition int32 : Dtype := λ x, (- 2 ^ 31 <=? x) && (x <? 2 ^ 31).
Definition int64 : Dtype := λ x, (- 2 ^ 63 <=? x) && (x <? 2 ^ 63).

(** [enumerate(a)] *)
Definition enumerate {A} (a : list A) : list (nat * A) := imap pair a.

(** [new_predict[ai] = c] *)
Definition assign_at (ai : list nat) (c : Z) (a : list Z) : list Z :=
  foldl (λ a k, <[k:=c]> a) a ai.

(** [[ind for ind, elm in enumerate(a) if elm == c]] *)
Definition positions (a : list Z) (c : Z) : list nat :=
  (filter (λ p, p.2 = c) (enumerate a)).*1.

(** The number of positions where the two arrays agree. *)
Definition agree (y_true y_pred : list Z) : nat :=
  length (filter (λ p, p.1 = p.2) (zip y_true y_pred)).

Definition ratio (a b : nat) : Q := Z.of_nat a # Pos.of_nat b.

(** [metrics.accuracy_score(y_true, y_pred)] *)
Definition accuracy_score (y_true y_pred : list Z) : Q :=
  ratio (agree y_true y_pred) (length y_true).

(** Division with sklearn's [zero_division] convention: [0] over [0]
    counts as [0]. *)
Definition safe_div (a b : Q) : Q :=
  if Qeq_bool b 0 then 0%Q else (a / b)%Q.

Definition count_eq (a : list Z) (c : Z) : nat :=
  length (filter (λ x, x = c) a).

Definition true_positives (y_true y_pred : list Z) (c : Z) : nat :=
  length (filter (λ p, p.1 = c ∧ p.2 = c) (zip y_true y_pred)).

Definition nat_Q (n : nat) : Q := inject_Z (Z.of_nat n).

(** The F1 score of one class. *)
Definition f1_class (y_true y_pred : list Z) (c : Z) : Q :=
  let tp := nat_Q (true_positives y_true y_pred c) in
  let precision := safe_div tp (nat_Q (count_eq y_pred c)) in
  let recall := safe_div tp (nat_Q (count_eq y_true c)) in
  safe_div (2 * precision * recall) (precision + recall).

(** The labels present in either array, sorted. *)
Definition unique_labels (y_true y_pred : list Z) : list Z :=
  merge_sort Z.le (remove_dups (y_true ++ y_pred)).

Definition Qsum (l : list Q) : Q := foldr Qplus 0%Q l.

(** [metrics.f1_score(y_true, y_pred, average='macro')] *)
Definition f1_score (y_true y_pred : list Z) : Q :=
  let labels := unique_labels y_true y_pred in
  safe_div (Qsum (f1_class y_true y_pred <$> labels)) (nat_Q (length labels)).

(** ** cluster_acc *)

(** The label the loop of lines 124-127 leaves at a position whose
    predicted label is [b]: that of the last pair [(c, c2)] with [c2 = b]. *)
Definition relabel (pairs : list (Z * Z)) (old b : Z) : Z :=
  foldl (λ v cc, if decide (b = cc.2) then cc.1 else v) old pairs.

(** The predicted label each row of the assignment is matched to. *)
Definition targets (l2 : list Z) (indexes : list (nat * nat)) : list Z :=
  (λ rc, default 0 (l2 !! rc.2)) <$> indexes.

Section ClusterAcc.
Context {dt : Dtype} {py : PySet} {solver : Solver}.

(** Lines 103-108: every label of [l1] that is not in [l2] is written to
    the next index of [y_pred].  A write first checks the index, then
    converts the label to the type of the array; the array is handed back
    also when a write fails. *)
Fixpoint relabel_missing (l1 l2 : list Z) (y_pred : list Z) (ind : nat)
  : list Z * option exn :=
  match l1 with
  | [] => (y_pred, None)
  | i :: l1' =>
      if decide (i ∈ l2) then relabel_missing l1' l2 y_pred ind
      else if decide (ind < length y_pred)%nat
           then if fits i
                then relabel_missing l1' l2 (<[ind:=i]> y_pred) (S ind)
                else (y_pred, Some OverflowError)
           else (y_pred, Some IndexError)
  end.

(** Lines 101-108. *)
Definition reconcile (l1 l2 : list Z) (y_pred : list Z) : list Z * option exn :=
  if decide (length l1 ≠ length l2) then relabel_missing l1 l2 y_pred 0
  else (y_pred, None).

(** Lines 116-119: the number of positions with true label [c1] and
    predicted label [c2]. *)
Definition overlap (y_true y_pred : list Z) (c1 c2 : Z) : nat :=
  let mps := positions y_true c1 in
  let mps_d := filter (λ i1, y_pred !! i1 = Some c2) mps in
  length mps_d.

(** Lines 114-119. *)
Definition cost_matrix (l1 l2 y_true y_pred : list Z) : list (list Z) :=
  (λ c1, (λ c2, Z.of_nat (overlap y_true y_pred c1 c2)) <$> l2) <$> l1.

(** Line 121: [cost.__neg__().tolist()] *)
Definition neg (cost : list (list Z)) : list (list Z) :=
  (λ row : list Z, Z.opp <$> row) <$> cost.

(** Lines 124-127, one round of the loop. *)
Definition remap_step (l2 : list Z) (indexes : list (nat * nat))
    (y_pred : list Z) (st : option (list Z)) (ic : nat * Z) : option (list Z) :=
  new_predict ← st;
  rc ← indexes !! ic.1;
  c2 ← l2 !! rc.2;
  Some (assign_at (positions y_pred c2) ic.2 new_predict).

(** Lines 123-127; [None] when an index is out of range. *)
Definition remap (l1 l2 : list Z) (indexes : list (nat * nat))
    (y_pred : list Z) : option (list Z) :=
  foldl (remap_step l2 indexes y_pred)
        (Some (replicate (length y_pred) 0)) (enumerate l1).

(** Lines 114-130, after the class counts were found equal. *)
Definition score (l1 l2 y_true y_pred : list Z) : outcome (Q * Q) :=
  if decide (length y_pred < length y_true)%nat then Raise IndexError
  else
    let cost := cost_matrix l1 l2 y_true y_pred in
    let indexes := compute (neg cost) in
    match remap l1 l2 indexes y_pred with
    | None => Raise IndexError
    | Some new_predict =>
        if decide (length y_true = length new_predict)
        then Return (accuracy_score y_true new_predict,
                     f1_score y_true new_predict)
        else Raise ValueError
    end.

Definition cluster_acc (y_true y_pred : list Z) : run :=
  match np_min y_true with
  | None => mkRun (Raise ValueError) [] y_pred
  | Some y_min =>
      let y_true := (λ x, x - y_min) <$> y_true in
      let l1 := set_list y_true in
      let l2 := set_list y_pred in
      match reconcile l1 l2 y_pred with
      | (y_pred, Some e) => mkRun (Raise e) [] y_pred
      | (y_pred, None) =>
          let l2 := set_list y_pred in
          if decide (length l1 ≠ length l2)
          then mkRun ReturnNone ["error"%string] y_pred
          else mkRun (score l1 l2 y_true y_pred) [] y_pred
      end
  end.

(** The predicted-label array after lines 95-108. *)
Definition reconciled (y_true y_pred : list Z) : list Z :=
  match np_min y_true with
  | None => y_pred
  | Some y_min =>
      let y_true := (λ x, x - y_min) <$> y_true in
      (reconcile (set_list y_true) (set_list y_pred) y_pred).1
  end.

(** The relabelling lines 120-127 apply to [y_pred]. *)
Definition alignment (l1 l2 y_true y_pred : list Z) : Z → Z :=
  relabel (zip l1 (targets l2 (compute (neg (cost_matrix l1 l2 y_true y_pred))))) 0.

End ClusterAcc.

(** ** The caller's arrays *)

(** The arrays live in a store and are passed by reference; [cluster_acc]
    reads both and writes only through [y_pred] (line 107). *)
Definition call_cluster_acc `{Dtype, PySet, Solver}
    (h : gmap nat (list Z)) (p_true p_pred : nat)
  : option (outcome (Q * Q) * list string * gmap nat (list Z)) :=
  y_true ← h !! p_true;
  y_pred ← h !! p_pred;
  let r := cluster_acc y_true y_pred in
  Some (result r, printed r, <[p_pred := y_pred_after r]> h).

(** ** eva *)

(** The outcome of [eva]: the four scores, an exception that [cluster_acc]
    raised, or the [TypeError] of unpacking [None] at line 144. *)
Inductive eva_outcome (M : Type) : Type :=
| Scores (acc : Q) (nmi ari : M) (f1 : Q)
| Raised (e : exn)
| TypeError.
Arguments Scores {M} acc nmi ari f1.
Arguments Raised {M} e.
Arguments TypeError {M}.

(** What one call of [eva] leaves behind: its outcome, the lines it
    printed, and the contents of the caller's [y_pred] array afterwards. *)
Record eva_run (M : Type) : Type := mkEvaRun {
  eva_result : eva_outcome M;
  eva_printed : list string;
  eva_y_pred_after : list Z
}.
Arguments mkEvaRun {M} _ _ _.
Arguments eva_result {M} _.
Arguments eva_printed {M} _.
Arguments eva_y_pred_after {M} _.

(** The two scores [eva] takes from sklearn as they are
    ([normalized_mutual_info_score] with [average_method='arithmetic'] and
    [adjusted_rand_score]), with values in [M], and the formatting
    ['{:.4f}'.format] of a score. *)
Class Sklearn (M : Type) : Type := {
  nmi_score : list Z → list Z → M;
  ari_score : list Z → list Z → M;
  format4 : Q → string;
  format4M : M → string
}.

Section Eva.
Context {dt : Dtype} {py : PySet} {solver : Solver} {M : Type} {sk : Sklearn M}.

(** Line 148: the four fields, which [print] joins with a space. *)
Definition details (acc : Q) (nmi ari : M) (f1 : Q) : string :=
  String.concat " "
    [ ":acc " +:+ format4 acc; ", nmi " +:+ format4M nmi;
      ", ari " +:+ format4M ari; ", f1 " +:+ format4 f1 ].

(** Lines 144-150.  [y_pred] is the array [cluster_acc] has written to. *)
Definition eva (y_true y_pred : list Z) (show_details : bool) : eva_run M :=
  let r := cluster_acc y_true y_pred in
  let y_pred := y_pred_after r in
  match result r with
  | Raise e => mkEvaRun (Raised e) (printed r) y_pred
  | ReturnNone => mkEvaRun TypeError (printed r) y_pred
  | Return (acc, f1) =>
      let nmi := nmi_score y_true y_pred in
      let ari := ari_score y_true y_pred in
      let out := if show_details then [details acc nmi ari f1] else [] in
      mkEvaRun (Scores acc nmi ari f1) (printed r ++ out) y_pred
  end.

End Eva.

(** ** Reference instances of the two interfaces *)

(** The distinct elements in ascending order (the order CPython yields for
    a set of small non-negative integers). *)
Definition ascending_set : PySet := λ a, merge_sort Z.le (remove_dups a).


(** A solver that meets the contract of [Munkres.compute], by exhaustive
    search over the permutations of the columns: it keeps the identity when
    that is a cheapest assignment, and otherwise the first cheapest one it
    meets.  Which of several cheapest assignments the library returns is
    not modelled; a concrete run below states an f1 only where the choice
    does not matter or where the library's first pass, the first zero of
    each reduced row, already stars the identity. *)
Definition assignment_cost (M : list (list Z)) (p : list nat) : Z :=
  total_cost M (zip (seq 0 (length M)) p).

Definition cheaper (M : list (list Z)) (best p : list nat) : list nat :=
  if decide (assignment_cost M p < assignment_cost M best) then p else best.

Definition exhaustive : Solver := λ M,
  let rows := seq 0 (length M) in
  zip rows (foldl (cheaper M) rows (permutations rows)).

(** The calls below run with the two reference instances. *)
Definition run_cluster_acc : list Z → list Z → run :=
  @cluster_acc int64 ascending_set exhaustive.

(** The scores as the calls that compute them: a score is the pair of
    arrays it is taken of, and prints as a placeholder. *)
Definition symbolic : Sklearn (list Z * list Z) := {|
  nmi_score := pair;
  ari_score := pair;
  format4 := λ _, "#.####"%string;
  format4M := λ _, "#.####"%string
|}.

Definition run_eva : list Z → list Z → bool → eva_run (list Z * list Z) :=
  @eva int64 ascending_set exhaustive _ symbolic.

(** ** Vocabulary of the statements *)

(** The number of positions [i] with [σ (y_pred[i]) = y_true[i]]. *)
Definition matches (σ : Z → Z) (y_true y_pred : list Z) : nat :=
  length (filter (λ p, σ p.2 = p.1) (zip y_true y_pred)).

(** The contingency count of the pair of labels [(a, b)]. *)
Definition cnt (y_true y_pred : list Z) (a b : Z) : nat :=
  length (filter (λ p, p.1 = a ∧ p.2 = b) (zip y_true y_pred)).

(** The number of distinct labels of an array. *)
Definition distinct (a : list Z) : nat := size (list_to_set a : gset Z).

(** The writes of line 107 succeed: every true label, counted from the
    smallest, that no prediction carries fits the integer type of
    [y_pred]. *)
Definition writable `{Dtype} (y_true y_pred : list Z) : Prop :=
  ∀ m a, np_min y_true = Some m → a ∈ y_true → a - m ∉ y_pred →
         fits (a - m) = true.

(** A one-to-one correspondence between the distinct predicted labels and
    the distinct true labels. *)
Record bijection (σ : Z → Z) (y_pred y_true : list Z) : Prop := {
  bij_into : ∀ b, b ∈ y_pred → σ b ∈ y_true;
  bij_inj : ∀ b b', b ∈ y_pred → b' ∈ y_pred → σ b = σ b' → b = b';
  bij_onto : ∀ a, a ∈ y_true → ∃ b, b ∈ y_pred ∧ σ b = a
}.


(** An injection of the predicted labels into the true labels. *)
Definition injection (σ : Z → Z) (y_pred y_true : list Z) : Prop :=
  (∀ b, b ∈ y_pred → σ b ∈ y_true) ∧
  (∀ b b', b ∈ y_pred → b' ∈ y_pred → σ b = σ b' → b = b').







(** ** Vocabulary of the proofs *)

(** [positions] with the indices counted from [off]. *)
Definition positions_from (off : nat) (a : list Z) (c : Z) : list nat :=
  (filter (λ p, p.2 = c) (imap (λ i x, ((off + i)%nat, x)) a)).*1.

(** The label at an index, [0] out of range. *)
Definition lab (l : list Z) (i : nat) : Z := default 0 (l !! i).

(** The first index of a label in a list. *)
Definition index_of (l : list Z) (x : Z) : nat :=
  default 0%nat (fst <$> list_find (λ a, a = x) l).

(** The (row, column) pairs of a relabelling [σ] of the predicted labels. *)
Definition matching_of (σ : Z → Z) (l1 l2 : list Z) : list (nat * nat) :=
  (λ j, (index_of l1 (σ (lab l2 j)), j)) <$> seq 0 (length l2).


(** * Soft assignment and target distribution *)

(** Tensor entries are IEEE-754 values of one binary format, given by the
    number [prec] of mantissa bits and the exponent [emax] of the
    infinities ([24] and [128] for [torch.float32]).  A matrix is the list
    of its rows.  The order in which [torch.sum] accumulates is the
    library's own, so the reduction of a vector is a parameter [tsum];
    [fsum], accumulation from left to right, is the instance the concrete
    runs use. *)

Definition fzero : spec_float := S754_zero false.

(** [x <= 0] or [x] is not a number. *)
Definition nonpositive (x : spec_float) : Prop :=
  SFleb x fzero = true ∨ x = S754_nan.

(** [x > 0] *)
Definition gt_zero (x : spec_float) : Prop := SFltb fzero x = true.

#[export] Instance gt_zero_dec x : Decision (gt_zero x).
Proof. unfold gt_zero. apply _. Defined.

(** Infinite or not a number. *)
Definition special (x : spec_float) : Prop :=
  x = S754_nan ∨ ∃ s, x = S754_infinity s.

(** A sum that holds an infinity or a NaN is an infinity or a NaN, in
    whatever order it is accumulated. *)
Definition propagates (tsum : list spec_float → spec_float) : Prop :=
  ∀ v x, x ∈ v → special x → special (tsum v).

(** A sum that holds a NaN is a NaN, in whatever order it is
    accumulated. *)
Definition propagates_nan (tsum : list spec_float → spec_float) : Prop :=
  ∀ v, S754_nan ∈ v → tsum v = S754_nan.

Definition is_nan (x : spec_float) : bool :=
  match x with S754_nan => true | _ => false end.

(** The minimum of two values as [torch.min] takes it: a NaN wins. *)
Definition fmin2 (a b : spec_float) : spec_float :=
  if is_nan a then a else if is_nan b then b else if SFltb b a then b else a.

(** [t.min()] over all the entries; an empty tensor has none
    ([RuntimeError]). *)
Definition tmin (t : list (list spec_float)) : option spec_float :=
  match mjoin t with
  | [] => None
  | x :: r => Some (foldl fmin2 x r)
  end.

Definition width (M : list (list spec_float)) : nat :=
  match M with [] => 0%nat | row :: _ => length row end.

Definition column (j : nat) (M : list (list spec_float)) : list spec_float :=
  (λ row, default fzero (row !! j)) <$> M.

(** The entries that [z - c] pairs, as the last dimension is broadcast: a
    row of one entry goes with every entry of the other row, rows of one
    length go entry by entry. *)
Definition broadcast {A} (z c : list A) : list (A * A) :=
  match z, c with
  | [a], _ => (λ b, (a, b)) <$> c
  | _, [b] => (λ a, (a, b)) <$> z
  | _, _ => zip z c
  end.

(** The lengths that can be broadcast: equal, or one of them [1]. *)
Definition compatible {A} (z c : list A) : Prop :=
  length z = length c ∨ length z = 1%nat ∨ length c = 1%nat.

#[export] Instance compatible_dec {A} (z c : list A) : Decision (compatible z c).
Proof. unfold compatible. apply _. Defined.

(** Every sample can be subtracted from every center. *)
Definition broadcastable {A} (emb centers : list (list A)) : Prop :=
  Forall (λ z, Forall (compatible z) centers) emb.

Section Tensor.
Variables prec emax : Z.
Variable tsum : list spec_float → spec_float.

Definition fone : spec_float := SFone prec emax.
Definition fadd := SFadd prec emax.
Definition fsub := SFsub prec emax.
Definition fmul := SFmul prec emax.
Definition fdiv := SFdiv prec emax.

(** Accumulation from left to right. *)
Definition fsum (v : list spec_float) : spec_float := foldl fadd fzero v.

(** [torch.sum(torch.pow(z - c, 2))] for one sample and one center. *)
Definition sq_dist (z c : list spec_float) : spec_float :=
  tsum ((λ ab, let d := fsub ab.1 ab.2 in fmul d d) <$> broadcast z c).

(** Line 66: [1.0 / (1.0 + torch.sum(torch.pow(Z.unsqueeze(1) - C, 2), 2))],
    [emb] for [Z] and [centers] for [cluster_centers]. *)
Definition kernel (emb centers : list (list spec_float))
  : list (list spec_float) :=
  (λ z, (λ c, fdiv fone (fadd fone (sq_dist z c))) <$> centers) <$> emb.

(** [(M.t() / v).t()]: row [i] of [M] divided by [v[i]]. *)
Definition div_rows (M : list (list spec_float)) (v : list spec_float)
  : list (list spec_float) :=
  zip_with (λ row s, (λ x, fdiv x s) <$> row) M v.

(** [torch.sum(M, 1)] *)
Definition sum1 (M : list (list spec_float)) : list spec_float := tsum <$> M.

(** [M.sum(0)] *)
Definition sum0 (M : list (list spec_float)) : list spec_float :=
  (λ j, tsum (column j M)) <$> seq 0 (width M).

(** Lines 66-69.  The subtraction of line 66 raises [RuntimeError] when
    the shapes cannot be broadcast. *)
Definition q_distribute (emb cluster_centers : list (list spec_float))
  : outcome (list (list spec_float)) :=
  if decide (broadcastable emb cluster_centers) then
    let q := kernel emb cluster_centers in
    match tmin q with
    | None => Raise RuntimeError
    | Some m =>
        if SFltb fzero m
        then let q := div_rows q (sum1 q) in Return q
        else Raise AssertionError
    end
  else Raise RuntimeError.

(** Lines 79-81. *)
Definition target_distribution (Q : list (list spec_float))
  : outcome (list (list spec_float)) :=
  let weight := (λ row, zip_with (λ x s, fdiv (fmul x x) s) row (sum0 Q)) <$> Q in
  let P := div_rows weight (sum1 weight) in
  Return P.

(** The common entry of the sharpened uniform matrix. *)
Definition sharpened (n k : nat) (q : spec_float) : spec_float :=
  let w := fdiv (fmul q q) (tsum (replicate n q)) in
  fdiv w (tsum (replicate k w)).

End Tensor.

(** The [n] by [k] matrix with every entry [q]. *)
Definition uniform {A} (n k : nat) (q : A) : list (list A) :=
  replicate n (replicate k q).

(** The sign bit is clear: [+0], a positive finite value or [+inf].  A NaN
    carries no sign here. *)
Definition sign_clear (x : spec_float) : Prop :=
  match x with
  | S754_zero s | S754_infinity s | S754_finite s _ _ => s = false
  | S754_nan => True
  end.

(** A sum of values without sign bit has none, in whatever order it is
    accumulated. *)
Definition keeps_sign (tsum : list spec_float → spec_float) : Prop :=
  ∀ v, Forall sign_clear v → sign_clear (tsum v).

(** The rational a finite value stands for. *)
Definition to_Q (x : spec_float) : Q :=
  match x with
  | S754_finite s m e =>
      ((if s then -1 else 1) * inject_Z (Z.pos m) * Qpower 2 e)%Q
  | _ => 0%Q
  end.

(** ** The two functions in exact arithmetic *)

(** Lines 66-69 and 79-81 once more, with rational entries and operations
    that do not round: what the two functions compute up to rounding. *)

Definition exact_sq_dist (z c : list Q) : Q :=
  Qsum ((λ ab : Q * Q, let d := ab.1 - ab.2 in d * d)%Q <$> broadcast z c).

Definition exact_kernel (emb centers : list (list Q)) : list (list Q) :=
  (λ z, (λ c, 1 / (1 + exact_sq_dist z c))%Q <$> centers) <$> emb.

Definition exact_div_rows (M : list (list Q)) (v : list Q) : list (list Q) :=
  zip_with (λ row s, (λ x, x / s)%Q <$> row) M v.

Definition exact_min (t : list (list Q)) : option Q :=
  match mjoin t with
  | [] => None
  | x :: r => Some (foldl Qmin x r)
  end.

Definition exact_q_distribute (emb cluster_centers : list (list Q))
  : outcome (list (list Q)) :=
  if decide (broadcastable emb cluster_centers) then
    let q := exact_kernel emb cluster_centers in
    match exact_min q with
    | None => Raise RuntimeError
    | Some m =>
        if Qlt_le_dec 0 m
        then let q := exact_div_rows q (Qsum <$> q) in Return q
        else Raise AssertionError
    end
  else Raise RuntimeError.

Definition exact_sum0 (M : list (list Q)) : list Q :=
  (λ j, Qsum ((λ row, default 0%Q (row !! j)) <$> M))
    <$> seq 0 (match M with [] => 0%nat | row :: _ => length row end).

Definition exact_target_distribution (M : list (list Q))
  : outcome (list (list Q)) :=
  let weight := (λ row, zip_with (λ x s, x * x / s)%Q row (exact_sum0 M)) <$> M in
  let P := exact_div_rows weight (Qsum <$> weight) in
  Return P.

(** ** Concrete tensors *)

(** [torch.float32] with left-to-right accumulation. *)
Definition f32 (m : positive) (e : Z) : spec_float :=
  binary_round 24 128 false m e.

Definition q_distribute32 := q_distribute 24 128 (fsum 24 128).
Definition target_distribution32 := target_distribution 24 128 (fsum 24 128).

(** [1/3] in [torch.float32]. *)
Definition third : spec_float := fdiv 24 128 (f32 1 0) (f32 3 0).

(** A [torch.float16] value [m * 2^e]. *)
Definition f16 (m : positive) (e : Z) : spec_float :=
  binary_round 11 16 false m e.

(** * Proofs: label alignment *)

(** ** Positions and counts *)

Lemma positions_from_0 a c : positions a c = positions_from 0 a c.
Proof. reflexivity. Qed.

Lemma positions_from_cons off x a c :
  positions_from off (x :: a) c =
  (if decide (x = c) then [off] else []) ++ positions_from (S off) a c.
Proof.
  unfold positions_from. rewrite imap_cons, filter_cons. simpl.
  rewrite Nat.add_0_r.
  assert (E : imap ((λ i y, ((off + i)%nat, y)) ∘ S) a
              = imap (λ i y, ((S off + i)%nat, y)) a).
  { apply imap_ext. intros i y _. simpl. f_equal. lia. }
  rewrite E. destruct (decide (x = c)); reflexivity.
Qed.

Lemma elem_of_positions_from off a c t :
  t ∈ positions_from off a c ↔ ∃ i, t = (off + i)%nat ∧ a !! i = Some c.
Proof.
  revert off. induction a as [|x a IH]; intros off.
  - unfold positions_from. simpl. split; [inversion 1|].
    intros (i & _ & Hi). rewrite lookup_nil in Hi. discriminate.
  - rewrite positions_from_cons, elem_of_app, IH. split.
    + intros [Ht|(i & -> & Hi)].
      * destruct (decide (x = c)) as [->|]; [|inversion Ht].
        apply list_elem_of_singleton in Ht as ->. exists 0%nat. split; [lia|done].
      * exists (S i). split; [lia|done].
    + intros ([|i] & -> & Hi); simpl in Hi.
      * left. injection Hi as ->. rewrite decide_True by done.
        rewrite Nat.add_0_r. apply list_elem_of_singleton. done.
      * right. exists i. split; [lia|done].
Qed.

Lemma elem_of_positions a c t : t ∈ positions a c ↔ a !! t = Some c.
Proof.
  rewrite positions_from_0, elem_of_positions_from. split.
  - intros (i & -> & Hi). done.
  - intros Ht. exists t. done.
Qed.

Lemma assign_at_lookup ai c a t :
  assign_at ai c a !! t = (λ old, if decide (t ∈ ai) then c else old) <$> a !! t.
Proof.
  unfold assign_at. revert a. induction ai as [|k ai IH]; intros a.
  - simpl foldl. destruct (a !! t) as [x|]; [|done]. cbn [fmap option_fmap option_map].
    case_decide as Hin; [inversion Hin|done].
  - simpl foldl. rewrite IH. destruct (decide (t = k)) as [->|Hne].
    + destruct (decide (k < length a)%nat) as [Hlt|Hge].
      * rewrite list_lookup_insert_eq by done.
        destruct (lookup_lt_is_Some_2 a k Hlt) as [x Hx]. rewrite Hx.
        cbn [fmap option_fmap option_map].
        f_equal. rewrite (decide_True (P := k ∈ k :: ai)) by left.
        by destruct (decide (k ∈ ai)).
      * rewrite list_insert_ge by lia. rewrite (lookup_ge_None_2 a k) by lia. done.
    + rewrite list_lookup_insert_ne by done.
      destruct (a !! t) as [x|]; [|done]. cbn [fmap option_fmap option_map]. f_equal.
      destruct (decide (t ∈ ai)) as [Hin|Hnin].
      * rewrite decide_True; [done|]. by right.
      * rewrite decide_False; [done|]. intros Hin. inversion Hin; subst; done.
Qed.

Lemma assign_at_positions y_pred c2 c new_predict :
  length new_predict = length y_pred →
  assign_at (positions y_pred c2) c new_predict =
  zip_with (λ b old, if decide (b = c2) then c else old) y_pred new_predict.
Proof.
  intros Hlen. apply list_eq. intros t.
  rewrite assign_at_lookup, lookup_zip_with.
  destruct (y_pred !! t) as [b|] eqn:Hb; simpl.
  - destruct (new_predict !! t) as [old|]; simpl; [|done]. f_equal.
    destruct (decide (b = c2)) as [->|Hne].
    + rewrite decide_True; [done|]. by apply elem_of_positions.
    + rewrite decide_False; [done|]. rewrite elem_of_positions. congruence.
  - apply lookup_ge_None in Hb.
    rewrite (lookup_ge_None_2 new_predict t) by lia. done.
Qed.

Lemma overlap_from pre y_true y_pred c1 c2 :
  (length y_true ≤ length y_pred)%nat →
  length (filter (λ i1, (pre ++ y_pred) !! i1 = Some c2)
                 (positions_from (length pre) y_true c1)) =
  cnt y_true y_pred c1 c2.
Proof.
  revert pre y_pred. induction y_true as [|x y_true IH]; intros pre y_pred Hlen.
  - reflexivity.
  - destruct y_pred as [|y y_pred]; [simpl in Hlen; lia|].
    rewrite positions_from_cons, filter_app, length_app.
    replace (pre ++ y :: y_pred) with ((pre ++ [y]) ++ y_pred) by (by rewrite <- app_assoc).
    replace (S (length pre)) with (length (pre ++ [y]))
      by (rewrite length_app; simpl; lia).
    rewrite IH by (simpl in Hlen; lia).
    unfold cnt. simpl zip_with. rewrite (filter_cons _ (x, y)). simpl.
    rewrite <- app_assoc. simpl.
    destruct (decide (x = c1)) as [->|Hx].
    + rewrite filter_cons. rewrite list_lookup_middle by done.
      destruct (decide (y = c2)) as [->|Hy].
      * rewrite decide_True by done. rewrite decide_True by done. simpl. done.
      * rewrite decide_False by congruence. rewrite decide_False by (intros [_ ?]; done).
        simpl. done.
    + rewrite decide_False by (intros [? _]; done). simpl. done.
Qed.

Lemma overlap_cnt y_true y_pred c1 c2 :
  (length y_true ≤ length y_pred)%nat →
  overlap y_true y_pred c1 c2 = cnt y_true y_pred c1 c2.
Proof. intros. unfold overlap. rewrite positions_from_0. by apply (overlap_from []). Qed.

(** ** The remapping loop *)

Lemma zip_snoc {A B} (l : list A) (k : list B) c y :
  k !! length l = Some y → zip (l ++ [c]) k = zip l k ++ [(c, y)].
Proof.
  revert k. induction l as [|x l IH]; intros [|z k] Hk; simpl in *; try done.
  - injection Hk as ->. by destruct k.
  - f_equal. by apply IH.
Qed.

Lemma zip_with_zip_with {A B} (f g : A → B → B) (l : list A) (k : list B) :
  zip_with f l (zip_with g l k) = zip_with (λ x y, f x (g x y)) l k.
Proof.
  revert k. induction l as [|x l IH]; intros [|y k]; simpl; try done.
  f_equal. apply IH.
Qed.

Lemma remap_loop l2 indexes y_pred l1 np0 :
  (length l1 ≤ length indexes)%nat →
  Forall (λ rc, rc.2 < length l2)%nat indexes →
  foldl (remap_step l2 indexes y_pred) (Some np0) (enumerate l1) =
  Some (foldl (λ np cc, assign_at (positions y_pred cc.2) cc.1 np) np0
              (zip l1 (targets l2 indexes))).
Proof.
  intros Hlen Hok. induction l1 as [|c l1 IH] using rev_ind; [done|].
  rewrite length_app in Hlen. simpl in Hlen.
  unfold enumerate. rewrite imap_app, foldl_app. simpl.
  fold (enumerate l1). rewrite IH by lia. rewrite Nat.add_0_r.
  destruct (lookup_lt_is_Some_2 indexes (length l1)) as [rc Hrc]; [lia|].
  assert (Hcol : (rc.2 < length l2)%nat).
  { rewrite Forall_forall in Hok. apply Hok. by eapply list_elem_of_lookup_2. }
  destruct (lookup_lt_is_Some_2 l2 rc.2 Hcol) as [c2 Hc2].
  unfold remap_step at 1. simpl. rewrite Hrc. simpl. rewrite Hc2. simpl.
  rewrite (zip_snoc l1 (targets l2 indexes) c c2).
  - rewrite foldl_app. done.
  - unfold targets. rewrite list_lookup_fmap, Hrc. simpl. by rewrite Hc2.
Qed.

Lemma assign_loop y_pred pairs np0 :
  length np0 = length y_pred →
  foldl (λ np cc, assign_at (positions y_pred cc.2) cc.1 np) np0 pairs =
  zip_with (λ b old, relabel pairs old b) y_pred np0.
Proof.
  revert np0. induction pairs as [|[c c2] pairs IH]; intros np0 Hlen.
  - simpl. unfold relabel. simpl. apply list_eq. intros t.
    rewrite lookup_zip_with.
    destruct (y_pred !! t) as [b|] eqn:Hb; simpl.
    + by destruct (np0 !! t).
    + apply lookup_ge_None in Hb. apply lookup_ge_None_2. lia.
  - simpl foldl at 1. rewrite assign_at_positions by done.
    rewrite IH by (rewrite length_zip_with; lia).
    rewrite zip_with_zip_with. done.
Qed.

Lemma remap_spec l1 l2 indexes y_pred :
  (length l1 ≤ length indexes)%nat →
  Forall (λ rc, rc.2 < length l2)%nat indexes →
  remap l1 l2 indexes y_pred =
  Some (relabel (zip l1 (targets l2 indexes)) 0 <$> y_pred).
Proof.
  intros Hlen Hok. unfold remap. rewrite remap_loop by done. f_equal.
  rewrite assign_loop by apply length_replicate.
  apply zip_with_replicate_r_eq. done.
Qed.

(** ** Sums over the labels *)

Lemma sum_list_with_ext {A} (f g : A → nat) l :
  (∀ x, x ∈ l → f x = g x) → sum_list_with f l = sum_list_with g l.
Proof.
  induction l as [|x l IH]; intros Hfg; simpl; [done|].
  rewrite Hfg by left. rewrite IH; [done|]. intros y Hy. apply Hfg. by right.
Qed.

Lemma sum_list_with_plus {A} (f g : A → nat) l :
  sum_list_with (λ x, f x + g x)%nat l = (sum_list_with f l + sum_list_with g l)%nat.
Proof. induction l as [|x l IH]; simpl; [done|]. rewrite IH. lia. Qed.

Lemma sum_list_with_fmap {A B} (h : A → B) (f : B → nat) l :
  sum_list_with f (h <$> l) = sum_list_with (f ∘ h) l.
Proof. induction l as [|x l IH]; csimpl; [done|]. by rewrite IH. Qed.

Lemma sum_list_with_indicator (ks : list Z) (a : Z) (v : nat) :
  NoDup ks → a ∈ ks →
  sum_list_with (λ b, if decide (b = a) then v else 0%nat) ks = v.
Proof.
  intros Hnd Hin. induction Hnd as [|x ks Hx Hnd IH]; [inversion Hin|].
  simpl. destruct (decide (x = a)) as [->|Hne].
  - rewrite (sum_list_with_ext _ (λ _, 0%nat)).
    + clear. induction ks; simpl; lia.
    + intros y Hy. rewrite decide_False; [done|]. intros ->. done.
  - rewrite IH; [done|]. inversion Hin; subst; done.
Qed.

(** The agreements of a relabelling, split by predicted label. *)
Lemma matches_by_label (σ : Z → Z) (ks : list Z) y_true y_pred :
  NoDup ks → (∀ b, b ∈ y_pred → b ∈ ks) →
  matches σ y_true y_pred = sum_list_with (λ b, cnt y_true y_pred (σ b) b) ks.
Proof.
  intros Hnd. unfold matches, cnt.
  revert y_pred. induction y_true as [|a y_true IH]; intros [|b y_pred] Hks; simpl.
  - clear. induction ks; simpl; [done|]. done.
  - clear. induction ks; simpl; [done|]. done.
  - clear. induction ks; simpl; [done|]. done.
  - rewrite filter_cons. simpl.
    rewrite (sum_list_with_ext _
      (λ k, (if decide (k = b) then (if decide (σ b = a) then 1 else 0) else 0)
            + length (filter (λ p, p.1 = σ k ∧ p.2 = k) (zip y_true y_pred)))%nat).
    + rewrite sum_list_with_plus, sum_list_with_indicator; [|done|apply Hks; left].
      rewrite <- IH by (intros; apply Hks; by right).
      destruct (decide (σ b = a)); simpl; lia.
    + intros k _. rewrite filter_cons. simpl.
      destruct (decide (k = b)) as [->|Hne].
      * destruct (decide (σ b = a)) as [<-|Hne'].
        -- rewrite decide_True by done. simpl. lia.
        -- rewrite decide_False by (intros [? _]; congruence). simpl. lia.
      * rewrite decide_False by (intros [_ ?]; congruence). simpl. lia.
Qed.

Lemma agree_fmap (σ : Z → Z) y_true y_pred :
  agree y_true (σ <$> y_pred) = matches σ y_true y_pred.
Proof.
  unfold agree, matches. revert y_pred.
  induction y_true as [|a y_true IH]; intros [|b y_pred]; csimpl; try done.
  rewrite !filter_cons. simpl. specialize (IH y_pred).
  destruct (decide (a = σ b)) as [->|Hne].
  - rewrite decide_True by done. simpl. by rewrite IH.
  - rewrite decide_False by congruence. done.
Qed.

Lemma relabel_notin pairs old b : b ∉ pairs.*2 → relabel pairs old b = old.
Proof.
  unfold relabel. revert old. induction pairs as [|[c c2] pairs IH]; intros old Hb; [done|].
  simpl in *. apply not_elem_of_cons in Hb as [Hne Hb].
  rewrite decide_False by done. by apply IH.
Qed.

Lemma relabel_lookup pairs old c c2 :
  NoDup pairs.*2 → (c, c2) ∈ pairs → relabel pairs old c2 = c.
Proof.
  revert old. induction pairs as [|[c' c2'] pairs IH]; intros old Hnd Hin; [inversion Hin|].
  simpl in Hnd. apply NoDup_cons in Hnd as [Hhd Hnd].
  apply elem_of_cons in Hin as [Heq|Hin].
  - injection Heq as -> ->. unfold relabel. simpl. rewrite decide_True by done.
    by apply (relabel_notin pairs c' c2').
  - unfold relabel. simpl. apply (IH _ Hnd Hin).
Qed.

(** ** The cost matrix *)

Lemma lab_seq l : lab l <$> seq 0 (length l) = l.
Proof.
  apply list_eq. intros i. rewrite list_lookup_fmap. unfold lab.
  destruct (l !! i) as [x|] eqn:Hx.
  - rewrite lookup_seq_lt by (by eapply lookup_lt_Some). simpl. by rewrite Hx.
  - rewrite lookup_seq_ge; [done|]. by apply lookup_ge_None.
Qed.

Lemma entry_neg_cost l1 l2 y_true y_pred i j :
  (i < length l1)%nat → (j < length l2)%nat →
  entry (neg (cost_matrix l1 l2 y_true y_pred)) i j =
  - Z.of_nat (overlap y_true y_pred (lab l1 i) (lab l2 j)).
Proof.
  intros Hi Hj. unfold entry, neg, cost_matrix, lab.
  destruct (lookup_lt_is_Some_2 l1 i Hi) as [a Ha].
  destruct (lookup_lt_is_Some_2 l2 j Hj) as [b Hb].
  rewrite !list_lookup_fmap, Ha. simpl.
  rewrite !list_lookup_fmap, Hb. simpl. done.
Qed.

Lemma total_cost_cnt l1 l2 y_true y_pred ps :
  (length y_true ≤ length y_pred)%nat →
  Forall (λ rc, rc.1 < length l1 ∧ rc.2 < length l2)%nat ps →
  total_cost (neg (cost_matrix l1 l2 y_true y_pred)) ps =
  - Z.of_nat (sum_list_with (λ rc, cnt y_true y_pred (lab l1 rc.1) (lab l2 rc.2)) ps).
Proof.
  intros Hlen. induction 1 as [|rc ps [Hr Hc] _ IH]; simpl; [done|].
  rewrite IH, entry_neg_cost, overlap_cnt by done. lia.
Qed.

Lemma total_cost_Permutation M ps ps' :
  ps ≡ₚ ps' → total_cost M ps = total_cost M ps'.
Proof. induction 1; simpl; lia. Qed.

Lemma square_neg_cost l1 l2 y_true y_pred :
  length l1 = length l2 → square (neg (cost_matrix l1 l2 y_true y_pred)).
Proof.
  intros Hk. unfold square, neg, cost_matrix.
  rewrite !length_fmap. rewrite <- list_fmap_compose.
  apply Forall_fmap, Forall_forall. intros a _. simpl.
  rewrite !length_fmap. done.
Qed.

Lemma length_neg_cost l1 l2 y_true y_pred :
  length (neg (cost_matrix l1 l2 y_true y_pred)) = length l1.
Proof. unfold neg, cost_matrix. by rewrite !length_fmap. Qed.

Lemma bounded_NoDup_Permutation (l : list nat) k :
  NoDup l → Forall (λ x, x < k)%nat l → length l = k → l ≡ₚ seq 0 k.
Proof.
  intros Hnd Hlt Hlen. apply submseteq_length_Permutation.
  - apply NoDup_submseteq; [done|]. intros x Hx. apply elem_of_seq.
    rewrite Forall_forall in Hlt. specialize (Hlt x Hx). lia.
  - rewrite length_seq. lia.
Qed.

(** ** Relabellings as matchings *)

Lemma index_of_lookup l x : x ∈ l → l !! index_of l x = Some x.
Proof.
  intros Hx. unfold index_of.
  destruct (list_find_elem_of (λ a, a = x) l x Hx eq_refl) as [[i y] Hf].
  rewrite Hf. simpl. apply list_find_Some in Hf as (Hi & -> & _). done.
Qed.

Lemma lab_index_of l x : x ∈ l → lab l (index_of l x) = x.
Proof. intros Hx. unfold lab. by rewrite index_of_lookup. Qed.

Lemma index_of_lt l x : x ∈ l → (index_of l x < length l)%nat.
Proof. intros Hx. eapply lookup_lt_Some. by apply index_of_lookup. Qed.

Lemma lab_elem_of l i : (i < length l)%nat → lab l i ∈ l.
Proof.
  intros Hi. unfold lab. destruct (lookup_lt_is_Some_2 l i Hi) as [x Hx].
  rewrite Hx. simpl. by eapply list_elem_of_lookup_2.
Qed.

Lemma lab_inj l i j :
  NoDup l → (i < length l)%nat → (j < length l)%nat → lab l i = lab l j → i = j.
Proof.
  intros Hnd Hi Hj. unfold lab.
  destruct (lookup_lt_is_Some_2 l i Hi) as [x Hx].
  destruct (lookup_lt_is_Some_2 l j Hj) as [y Hy].
  rewrite Hx, Hy. simpl. intros ->. by eapply NoDup_lookup.
Qed.

Lemma zip_fmap_same {A B C} (f : A → B) (g : A → C) (l : list A) :
  zip (f <$> l) (g <$> l) = (λ x, (f x, g x)) <$> l.
Proof. induction l as [|x l IH]; csimpl; [done|]. by rewrite IH. Qed.

Lemma NoDup_fst_functional {A B} (l : list (A * B)) x y1 y2 :
  NoDup l.*1 → (x, y1) ∈ l → (x, y2) ∈ l → y1 = y2.
Proof.
  induction l as [|[a b] l IH]; intros Hnd H1 H2; [inversion H1|].
  csimpl in Hnd. apply NoDup_cons in Hnd as [Hhd Hnd].
  apply elem_of_cons in H1 as [E1|H1]; apply elem_of_cons in H2 as [E2|H2].
  - congruence.
  - injection E1 as -> ->. exfalso. apply Hhd.
    apply list_elem_of_fmap. by exists (a, y2).
  - injection E2 as -> ->. exfalso. apply Hhd.
    apply list_elem_of_fmap. by exists (a, y1).
  - by apply IH.
Qed.

Lemma matching_of_perfect σ l1 l2 :
  NoDup l1 → NoDup l2 → length l1 = length l2 →
  (∀ b, b ∈ l2 → σ b ∈ l1) →
  (∀ b b', b ∈ l2 → b' ∈ l2 → σ b = σ b' → b = b') →
  perfect_matching (length l1) (matching_of σ l1 l2).
Proof.
  intros Hnd1 Hnd2 Hk Hinto Hinj. unfold perfect_matching, matching_of.
  rewrite <- !list_fmap_compose. split.
  - apply bounded_NoDup_Permutation.
    + apply NoDup_fmap_2_strong; [|apply NoDup_seq].
      intros i j Hi Hj Heq. simpl in Heq.
      apply elem_of_seq in Hi, Hj.
      assert (Hi' : lab l2 i ∈ l2) by (apply lab_elem_of; lia).
      assert (Hj' : lab l2 j ∈ l2) by (apply lab_elem_of; lia).
      apply (lab_inj l2); [done|lia|lia|].
      apply Hinj; [done|done|].
      rewrite <- (lab_index_of l1 (σ (lab l2 i))) by auto.
      rewrite <- (lab_index_of l1 (σ (lab l2 j))) by auto.
      by rewrite Heq.
    + apply Forall_fmap, Forall_seq. intros j Hj. simpl.
      apply index_of_lt, Hinto, lab_elem_of. lia.
    + rewrite length_fmap, length_seq. done.
  - rewrite Hk. rewrite (list_fmap_ext _ id); [by rewrite list_fmap_id|done].
Qed.

Lemma matching_of_cost σ l1 l2 y_true y_pred :
  NoDup l2 → (length y_true ≤ length y_pred)%nat →
  (∀ b, b ∈ y_pred → b ∈ l2) → (∀ b, b ∈ l2 → σ b ∈ l1) →
  total_cost (neg (cost_matrix l1 l2 y_true y_pred)) (matching_of σ l1 l2) =
  - Z.of_nat (matches σ y_true y_pred).
Proof.
  intros Hnd2 Hlen Hcov Hinto. rewrite total_cost_cnt; [|done|].
  - f_equal. f_equal. rewrite (matches_by_label σ l2) by done.
    unfold matching_of. rewrite sum_list_with_fmap.
    transitivity (sum_list_with (λ b, cnt y_true y_pred (σ b) b)
                                (lab l2 <$> seq 0 (length l2)));
      [|by rewrite lab_seq].
    rewrite sum_list_with_fmap.
    apply sum_list_with_ext. intros j Hj. simpl.
    apply elem_of_seq in Hj. rewrite lab_index_of; [done|].
    apply Hinto, lab_elem_of. lia.
  - unfold matching_of. apply Forall_fmap, Forall_seq. intros j Hj. simpl.
    split; [|lia]. apply index_of_lt, Hinto, lab_elem_of. lia.
Qed.

(** ** The matching found by the solver *)

Section Matching.
Context {py : PySet} {solver : Solver} {solver_laws : SolverLaws solver}.

Lemma score_spec l1 l2 y_true y_pred :
  NoDup l1 → NoDup l2 →
  (∀ x, x ∈ l1 ↔ x ∈ y_true) → (∀ x, x ∈ l2 ↔ x ∈ y_pred) →
  length l1 = length l2 → length y_true = length y_pred →
  let τ := alignment l1 l2 y_true y_pred in
  score l1 l2 y_true y_pred
    = Return (accuracy_score y_true (τ <$> y_pred), f1_score y_true (τ <$> y_pred))
  ∧ bijection τ y_pred y_true
  ∧ ∀ σ, injection σ y_pred y_true →
         (matches σ y_true y_pred ≤ matches τ y_true y_pred)%nat.
Proof.
  intros Hnd1 Hnd2 Hl1 Hl2 Hk Hn τ.
  set (M := neg (cost_matrix l1 l2 y_true y_pred)) in *.
  set (idx := compute M) in *.
  assert (Hsq : square M) by (by apply square_neg_cost).
  assert (HM : length M = length l1) by apply length_neg_cost.
  pose proof (compute_rows M Hsq) as Hrows.
  pose proof (compute_cols M Hsq) as Hcols.
  fold idx in Hrows, Hcols. rewrite HM in Hrows, Hcols.
  assert (Hlen : length idx = length l1).
  { rewrite <- (length_fmap fst idx), Hrows, length_seq. done. }
  assert (Hcol : Forall (λ rc, rc.2 < length l2)%nat idx).
  { apply Forall_forall. intros rc Hrc.
    assert (Hin : rc.2 ∈ idx.*2) by (by apply list_elem_of_fmap_2).
    rewrite Hcols in Hin. apply elem_of_seq in Hin. lia. }
  assert (Hrow : Forall (λ rc, rc.1 < length l1)%nat idx).
  { apply Forall_forall. intros rc Hrc.
    assert (Hin : rc.1 ∈ idx.*1) by (by apply list_elem_of_fmap_2).
    rewrite Hrows in Hin. apply elem_of_seq in Hin. lia. }
  set (pairs := zip l1 (targets l2 idx)).
  assert (Hpairs : pairs = (λ rc, (lab l1 rc.1, lab l2 rc.2)) <$> idx).
  { unfold pairs, targets. rewrite <- (lab_seq l1) at 1. rewrite <- Hrows.
    rewrite <- list_fmap_compose. apply zip_fmap_same. }
  assert (Hp1 : pairs.*1 = l1).
  { transitivity (lab l1 <$> idx.*1); [|rewrite Hrows; apply lab_seq].
    rewrite Hpairs, <- !list_fmap_compose. done. }
  assert (Hp2 : pairs.*2 ≡ₚ l2).
  { transitivity (lab l2 <$> idx.*2); [|by rewrite Hcols, Hk, lab_seq].
    rewrite Hpairs, <- !list_fmap_compose. done. }
  assert (Hnd : NoDup pairs.*2) by (by rewrite Hp2).
  assert (Hτ : ∀ c c2, (c, c2) ∈ pairs → τ c2 = c).
  { intros c c2 Hin. by apply relabel_lookup. }
  assert (Hsnd : ∀ b, b ∈ y_pred → ∃ c, (c, b) ∈ pairs).
  { intros b Hb. apply Hl2 in Hb. rewrite <- Hp2 in Hb.
    apply list_elem_of_fmap in Hb as ([c b'] & -> & Hin). by exists c. }
  assert (Hfst : ∀ a, a ∈ y_true → ∃ b, (a, b) ∈ pairs).
  { intros a Ha. apply Hl1 in Ha. rewrite <- Hp1 in Ha.
    apply list_elem_of_fmap in Ha as ([a' b] & -> & Hin). by exists b. }
  assert (Hτcost : total_cost M idx = - Z.of_nat (matches τ y_true y_pred)).
  { unfold M. rewrite total_cost_cnt; [|lia|].
    - f_equal. f_equal. rewrite (matches_by_label τ pairs.*2); [|done|].
      + rewrite sum_list_with_fmap, Hpairs, sum_list_with_fmap.
        apply sum_list_with_ext. intros rc Hrc. simpl.
        rewrite (Hτ (lab l1 rc.1) (lab l2 rc.2)); [done|].
        rewrite Hpairs. by apply (list_elem_of_fmap_2 (λ rc, (lab l1 rc.1, lab l2 rc.2))).
      + intros b Hb. rewrite Hp2. by apply Hl2.
    - apply Forall_forall. intros rc Hrc. rewrite Forall_forall in Hrow, Hcol. auto. }
  split; [|split].
  - unfold score. rewrite decide_False by lia.
    fold M. fold idx. rewrite remap_spec; [|lia|done].
    fold pairs. rewrite decide_True; [done|]. by rewrite length_fmap.
  - split.
    + intros b Hb. destruct (Hsnd b Hb) as [c Hc]. rewrite (Hτ _ _ Hc).
      apply Hl1. rewrite <- Hp1. apply list_elem_of_fmap. by exists (c, b).
    + intros b b' Hb Hb' Heq.
      destruct (Hsnd b Hb) as [c Hc]. destruct (Hsnd b' Hb') as [c' Hc'].
      rewrite (Hτ _ _ Hc), (Hτ _ _ Hc') in Heq. subst c'.
      apply (NoDup_fst_functional pairs c); [|done|done]. rewrite Hp1. done.
    + intros a Ha. destruct (Hfst a Ha) as [b Hb]. exists b. split; [|by apply Hτ].
      apply Hl2. rewrite <- Hp2. apply list_elem_of_fmap. by exists (a, b).
  - intros σ [Hinto Hinj].
    assert (Hinto' : ∀ b, b ∈ l2 → σ b ∈ l1).
    { intros b Hb. apply Hl1, Hinto, Hl2, Hb. }
    assert (Hinj' : ∀ b b', b ∈ l2 → b' ∈ l2 → σ b = σ b' → b = b').
    { intros b b' Hb Hb'. apply Hinj; by apply Hl2. }
    pose proof (matching_of_perfect σ l1 l2 Hnd1 Hnd2 Hk Hinto' Hinj') as Hpm.
    rewrite <- HM in Hpm.
    pose proof (compute_min M _ Hsq Hpm) as Hmin. fold idx in Hmin.
    rewrite Hτcost in Hmin. unfold M in Hmin.
    rewrite matching_of_cost in Hmin; [lia|done|lia| |done].
    intros b Hb. by apply Hl2.
Qed.

End Matching.

(** ** The whole call *)

Lemma distinct_NoDup (l a : list Z) :
  NoDup l → (∀ x, x ∈ l ↔ x ∈ a) → length l = distinct a.
Proof.
  intros Hnd Hel. unfold distinct.
  rewrite <- (size_list_to_set (C := gset Z) l) by done.
  f_equal. apply set_eq. intros x. rewrite !elem_of_list_to_set. apply Hel.
Qed.

Lemma distinct_fmap_inj (f : Z → Z) a :
  (∀ x y, f x = f y → x = y) → distinct (f <$> a) = distinct a.
Proof.
  intros Hinj.
  rewrite <- (distinct_NoDup (f <$> remove_dups a) (f <$> a)).
  - rewrite length_fmap. apply distinct_NoDup; [apply NoDup_remove_dups|].
    intros x. apply elem_of_remove_dups.
  - apply NoDup_fmap_2_strong; [|apply NoDup_remove_dups]. intros x y _ _. apply Hinj.
  - intros x. rewrite !list_elem_of_fmap. by setoid_rewrite elem_of_remove_dups.
Qed.

Lemma np_min_Some a : a ≠ [] → ∃ m, np_min a = Some m.
Proof. destruct a; [done|]. intros _. by eexists. Qed.

Lemma np_min_None a : np_min a = None → a = [].
Proof. by destruct a. Qed.



Lemma matches_le σ y_true y_pred : (matches σ y_true y_pred ≤ length y_true)%nat.
Proof.
  unfold matches. etrans; [apply length_filter|]. rewrite length_zip. lia.
Qed.


Section Call.
Context {dt : Dtype} {py : PySet} {py_laws : PySetLaws py}
        {solver : Solver} {solver_laws : SolverLaws solver}.

Lemma length_set_list a : length (set_list a) = distinct a.
Proof. apply distinct_NoDup; [apply set_list_NoDup|apply set_list_elem]. Qed.

(** With equally many distinct labels on both sides the call goes straight
    to the scoring, and [y_pred] is not written. *)
Lemma cluster_acc_equal_counts y_true y_pred m :
  np_min y_true = Some m → distinct y_true = distinct y_pred →
  cluster_acc y_true y_pred =
  let y_true' := (λ x, x - m) <$> y_true in
  mkRun (score (set_list y_true') (set_list y_pred) y_true' y_pred) [] y_pred.
Proof.
  intros Hmin Hcard. unfold cluster_acc. rewrite Hmin. simpl.
  assert (Hk : length (set_list ((λ x, x - m) <$> y_true)) = length (set_list y_pred)).
  { rewrite !length_set_list, distinct_fmap_inj; [done|]. intros; lia. }
  unfold reconcile. rewrite decide_False by (intros Hne; by apply Hne).
  rewrite decide_False by (intros Hne; by apply Hne). done.
Qed.


End Call.



Section Claims.
Context {dt : Dtype} {py : PySet} {py_laws : PySetLaws py}
        {solver : Solver} {solver_laws : SolverLaws solver}.


End Claims.

(** ** The reference instances meet their contracts *)

#[export] Instance ascending_set_laws : PySetLaws ascending_set.
Proof.
  split.
  - intros a. unfold set_list, ascending_set.
    rewrite merge_sort_Permutation. apply NoDup_remove_dups.
  - intros a x. unfold set_list, ascending_set.
    rewrite merge_sort_Permutation. apply elem_of_remove_dups.
Qed.

Lemma foldl_cheaper_elem M best ps :
  foldl (cheaper M) best ps ∈ best :: ps.
Proof.
  revert best. induction ps as [|p ps IH]; intros best; simpl; [left|].
  specialize (IH (cheaper M best p)). unfold cheaper in *.
  destruct (decide (assignment_cost M p < assignment_cost M best)).
  - apply elem_of_cons in IH as [->|IH]; [right; left|by do 2 right].
  - apply elem_of_cons in IH as [->|IH]; [left|by do 2 right].
Qed.

Lemma foldl_cheaper_le M best ps :
  assignment_cost M (foldl (cheaper M) best ps) ≤ assignment_cost M best.
Proof.
  revert best. induction ps as [|p ps IH]; intros best; simpl; [lia|].
  etrans; [apply IH|]. unfold cheaper. case_decide; lia.
Qed.

Lemma foldl_cheaper_min M best ps p :
  p ∈ ps → assignment_cost M (foldl (cheaper M) best ps) ≤ assignment_cost M p.
Proof.
  revert best. induction ps as [|q ps IH]; intros best Hp; [inversion Hp|].
  simpl. apply elem_of_cons in Hp as [->|Hp]; [|by apply IH].
  etrans; [apply foldl_cheaper_le|]. unfold cheaper. case_decide; lia.
Qed.

Lemma exhaustive_best_perm M :
  foldl (cheaper M) (seq 0 (length M)) (permutations (seq 0 (length M)))
  ≡ₚ seq 0 (length M).
Proof.
  pose proof (foldl_cheaper_elem M (seq 0 (length M))
                (permutations (seq 0 (length M)))) as Hin.
  apply elem_of_cons in Hin as [->|Hin]; [done|].
  symmetry. by apply permutations_Permutation.
Qed.

Lemma rows_first (ps : list (nat * nat)) (rows : list nat) :
  ps.*1 ≡ₚ rows → ∃ ps', ps'.*1 = rows ∧ ps ≡ₚ ps'.
Proof.
  intros Hp. symmetry in Hp.
  destruct (Permutation_map_inv fst ps Hp) as (ps' & Heq & Hperm).
  exists ps'. split; [by symmetry|done].
Qed.

#[export] Instance exhaustive_laws : SolverLaws exhaustive.
Proof.
  split.
  - intros M _. unfold compute, exhaustive. apply fst_zip.
    by rewrite (exhaustive_best_perm M).
  - intros M _. unfold compute, exhaustive. rewrite snd_zip.
    + apply exhaustive_best_perm.
    + by rewrite (exhaustive_best_perm M).
  - intros M ps _ [Hrows Hcols].
    destruct (rows_first ps _ Hrows) as (ps' & Hfst & Hperm).
    rewrite (total_cost_Permutation M ps ps' Hperm).
    rewrite <- (zip_fst_snd ps'), Hfst.
    apply (foldl_cheaper_min M). apply permutations_Permutation.
    by rewrite <- Hcols, Hperm.
Qed.


(** ** Reconciliation of the class counts *)

Lemma distinct_le_length a : (distinct a ≤ length a)%nat.
Proof.
  rewrite <- (distinct_NoDup (remove_dups a) a).
  - apply submseteq_length, NoDup_submseteq; [apply NoDup_remove_dups|].
    intros x. by rewrite elem_of_remove_dups.
  - apply NoDup_remove_dups.
  - intros x. apply elem_of_remove_dups.
Qed.

Section Reconcile.
Context {dt : Dtype} {py : PySet} {py_laws : PySetLaws py} {solver : Solver}.

Lemma relabel_missing_in_range l1 l2 y_pred ind :
  (ind + length l1 ≤ length y_pred)%nat →
  (∀ i, i ∈ l1 → i ∉ l2 → fits i = true) →
  (relabel_missing l1 l2 y_pred ind).2 = None.
Proof.
  revert y_pred ind. induction l1 as [|i l1 IH]; intros y_pred ind Hlen Hfit; [done|].
  assert (Hfit' : ∀ j, j ∈ l1 → j ∉ l2 → fits j = true).
  { intros j Hj. apply Hfit. by right. }
  simpl in *. case_decide as Hi.
  - apply IH; [lia|done].
  - rewrite decide_True by lia. rewrite (Hfit i) by (done || left).
    apply IH; [rewrite length_insert; lia|done].
Qed.

Lemma relabel_missing_length l1 l2 y_pred ind :
  length (relabel_missing l1 l2 y_pred ind).1 = length y_pred.
Proof.
  revert y_pred ind. induction l1 as [|i l1 IH]; intros y_pred ind; [done|].
  simpl. repeat case_decide; [apply IH| |done].
  destruct (fits i); [|done]. rewrite IH. apply length_insert.
Qed.

Lemma reconcile_in_range l1 l2 y_pred :
  (length l1 ≤ length y_pred)%nat →
  (∀ i, i ∈ l1 → i ∉ l2 → fits i = true) →
  (reconcile l1 l2 y_pred).2 = None.
Proof.
  intros Hlen Hfit. unfold reconcile. case_decide; [|done].
  by apply relabel_missing_in_range.
Qed.

Lemma writable_fits y_true y_pred m i :
  writable y_true y_pred → np_min y_true = Some m →
  i ∈ set_list ((λ x, x - m) <$> y_true) → i ∉ set_list y_pred →
  fits i = true.
Proof.
  intros Hw Hmin Hi Hno. rewrite set_list_elem in Hi, Hno.
  apply list_elem_of_fmap in Hi as (a & -> & Ha). by apply (Hw m a).
Qed.

Lemma cluster_acc_after_reconcile y_true y_pred m :
  np_min y_true = Some m → length y_true = length y_pred →
  writable y_true y_pred →
  cluster_acc y_true y_pred =
  let y_true' := (λ x, x - m) <$> y_true in
  let l1 := set_list y_true' in
  let y_pred' := reconciled y_true y_pred in
  let l2 := set_list y_pred' in
  if decide (length l1 ≠ length l2)
  then mkRun ReturnNone ["error"%string] y_pred'
  else mkRun (score l1 l2 y_true' y_pred') [] y_pred'.
Proof.
  intros Hmin Hn Hw. unfold cluster_acc, reconciled. rewrite Hmin. simpl.
  pose proof (reconcile_in_range (set_list ((λ x, x - m) <$> y_true))
                (set_list y_pred) y_pred) as Hok.
  destruct (reconcile _ _ y_pred) as [y_pred' [e|]]; simpl in *; [|done].
  discriminate Hok.
  - rewrite length_set_list, <- Hn.
    etrans; [apply distinct_le_length|]. by rewrite length_fmap.
  - intros i. by apply writable_fits.
Qed.







End Reconcile.

Section Effects.
Context {dt : Dtype} {py : PySet} {py_laws : PySetLaws py}
        {solver : Solver} {solver_laws : SolverLaws solver}.

Lemma cluster_acc_frame y_true y_pred :
  distinct y_true = distinct y_pred →
  y_pred_after (cluster_acc y_true y_pred) = y_pred.
Proof.
  intros Hcard. destruct (np_min y_true) as [m|] eqn:Hmin.
  - by rewrite (cluster_acc_equal_counts _ _ m).
  - unfold cluster_acc. by rewrite Hmin.
Qed.


(** C10. Whatever the outcome, a call leaves the caller's [y_true] array
    as it was, also when both arguments are one array; and when the two
    arrays have equally many distinct labels on entry it leaves the whole
    store, [y_pred] included, unchanged. *)
Theorem cluster_acc_writes_only_on_mismatch
    (h : gmap nat (list Z)) (p_true p_pred : nat) (y_true y_pred : list Z) :
  h !! p_true = Some y_true → h !! p_pred = Some y_pred →
  ∃ o out h', call_cluster_acc h p_true p_pred = Some (o, out, h') ∧
    h' !! p_true = Some y_true ∧
    (distinct y_true = distinct y_pred →
     h' = h ∧ y_pred_after (cluster_acc y_true y_pred) = y_pred).
Proof.
  intros Ht Hp. unfold call_cluster_acc. rewrite Ht, Hp. simpl.
  eexists _, _, _. split; [reflexivity|]. split.
  - destruct (decide (p_pred = p_true)) as [->|Hne].
    + rewrite lookup_insert_eq. f_equal.
      assert (y_pred = y_true) as -> by congruence.
      by apply cluster_acc_frame.
    + by rewrite lookup_insert_ne.
  - intros Hcard. rewrite (cluster_acc_frame _ _ Hcard).
    split; [by apply insert_id|done].
Qed.

End Effects.



(** In an [int32] array a label beyond its range is not written: line 107
    raises, after the writes before it. *)
Lemma cluster_acc_overflow :
  @cluster_acc int32 ascending_set exhaustive [0; 2 ^ 40; 2 ^ 40] [1; 2; 3]
  = mkRun (Raise OverflowError) [] [0; 2; 3].
Proof. vm_compute. reflexivity. Qed.

Lemma cluster_acc_writes_only_on_mismatch_witness :
  ∃ o out h',
    @call_cluster_acc int64 ascending_set exhaustive
      (<[2%nat := [5; 5; 7; 7]]> {[1%nat := [0; 0; 1; 1]]}) 1 2 = Some (o, out, h') ∧
    h' !! 1%nat = Some [0; 0; 1; 1] ∧
    (distinct [0; 0; 1; 1] = distinct [5; 5; 7; 7] →
     h' = <[2%nat := [5; 5; 7; 7]]> {[1%nat := [0; 0; 1; 1]]} ∧
     y_pred_after (run_cluster_acc [0; 0; 1; 1] [5; 5; 7; 7]) = [5; 5; 7; 7]).
Proof.
  apply (@cluster_acc_writes_only_on_mismatch int64 ascending_set ascending_set_laws
           exhaustive).
  - reflexivity.
  - reflexivity.
Defined.

(** ** A perfect prediction *)














Section Identical.
Context {dt : Dtype} {py : PySet} {py_laws : PySetLaws py}
        {solver : Solver} {solver_laws : SolverLaws solver}.


End Identical.



(** ** Relabelling the predicted clusters *)












Section Relabelling.
Context {dt : Dtype} {py : PySet} {py_laws : PySetLaws py}
        {solver : Solver} {solver_laws : SolverLaws solver}.






Lemma reconciled_length y_true y_pred :
  length (reconciled y_true y_pred) = length y_pred.
Proof.
  unfold reconciled. destruct (np_min y_true) as [m|]; [|done].
  simpl. unfold reconcile. case_decide; [|done]. apply relabel_missing_length.
Qed.



End Relabelling.



(** ** Offsets of the ground truth *)

Lemma foldl_min_shift (c x : Z) (r : list Z) :
  foldl Z.min (x + c) ((λ y, y + c) <$> r) = foldl Z.min x r + c.
Proof.
  revert x. induction r as [|y r IH]; intros x; csimpl; [done|].
  rewrite <- IH. f_equal. lia.
Qed.

Lemma np_min_shift (c : Z) (a : list Z) :
  np_min ((λ y, y + c) <$> a) = (λ m, m + c) <$> np_min a.
Proof. destruct a as [|x r]; csimpl; [done|]. by rewrite foldl_min_shift. Qed.

(** X1. Moving every ground-truth label by the same offset changes nothing:
    not the outcome, not the output, not what is written to [y_pred]. *)
Theorem cluster_acc_offset `{Dtype, PySet, Solver} (y_true y_pred : list Z) (c : Z) :
  cluster_acc ((λ x, x + c) <$> y_true) y_pred = cluster_acc y_true y_pred.
Proof.
  unfold cluster_acc. rewrite np_min_shift.
  destruct (np_min y_true) as [m|]; csimpl; [|done].
  rewrite <- list_fmap_compose.
  rewrite (list_fmap_ext ((λ x, x - (m + c)) ∘ (λ x, x + c)) (λ x, x - m) y_true);
    [done|].
  intros i x _. simpl. lia.
Qed.

(** ** Predictions that are right up to the names of the clusters *)



Section Scored.
Context {dt : Dtype} {py : PySet} {py_laws : PySetLaws py}
        {solver : Solver} {solver_laws : SolverLaws solver}.




End Scored.



(** ** Bounds on the accuracy *)

Lemma sum_list_with_swap {A B} (f : A → B → nat) (l : list A) (k : list B) :
  sum_list_with (λ a, sum_list_with (λ b, f a b) k) l
  = sum_list_with (λ b, sum_list_with (λ a, f a b) l) k.
Proof.
  induction l as [|a l IH]; simpl.
  - induction k as [|b k IHk]; simpl; [done|]. by rewrite <- IHk.
  - rewrite IH, <- sum_list_with_plus. done.
Qed.

Lemma sum_list_with_bound {A} (f : A → nat) (l : list A) (N : nat) :
  (∀ x, x ∈ l → f x ≤ N)%nat → (sum_list_with f l ≤ length l * N)%nat.
Proof.
  induction l as [|x l IH]; intros Hle; simpl; [done|].
  specialize (Hle x (list_elem_of_here _ _)) as Hx.
  specialize (IH (λ y Hy, Hle y (list_elem_of_further _ _ _ Hy))). lia.
Qed.

(** The positions, counted by their true label. *)
Lemma count_by_true_label (l1 : list Z) (ps : list (Z * Z)) :
  NoDup l1 → (∀ p, p ∈ ps → p.1 ∈ l1) →
  sum_list_with (λ a, length (filter (λ p : Z * Z, p.1 = a) ps)) l1 = length ps.
Proof.
  intros Hnd. induction ps as [|p ps IH]; intros Hin.
  - simpl. clear. induction l1; simpl; [done|]. done.
  - rewrite (sum_list_with_ext _
      (λ a, (if decide (a = p.1) then 1 else 0)
            + length (filter (λ p : Z * Z, p.1 = a) ps))%nat).
    + rewrite sum_list_with_plus, sum_list_with_indicator; [|done|apply Hin; left].
      rewrite IH; [done|]. intros q Hq. apply Hin. by right.
    + intros a _. rewrite filter_cons.
      destruct (decide (a = p.1)) as [->|Hne].
      * by rewrite decide_True.
      * by rewrite decide_False.
Qed.

Lemma cnt_by_pred_label (l2 : list Z) y_true y_pred (a : Z) :
  NoDup l2 → (∀ b, b ∈ y_pred → b ∈ l2) →
  sum_list_with (λ b, cnt y_true y_pred a b) l2
  = length (filter (λ p : Z * Z, p.1 = a) (zip y_true y_pred)).
Proof.
  intros Hnd Hin.
  rewrite <- (matches_by_label (λ _, a) l2 y_true y_pred Hnd Hin).
  unfold matches. f_equal. apply list_filter_iff. intros p. simpl. split; congruence.
Qed.

Lemma lab_rotate (l : list Z) (s j : nat) :
  (s < length l)%nat → (j < length l)%nat →
  lab (rotate s l) j = lab (rotate j l) s.
Proof.
  intros Hs Hj. unfold lab. rewrite !lookup_rotate_r by done.
  unfold rotate_nat_add. by rewrite (Z.add_comm (Z.of_nat s)).
Qed.

Lemma rotate_Permutation {A} (n : nat) (l : list A) : rotate n l ≡ₚ l.
Proof.
  unfold rotate. rewrite Permutation_app_comm. by rewrite take_drop.
Qed.

(** The label the [s]-th rotation of the true labels gives to a predicted
    label. *)
Lemma rotation_injection (l1 l2 y_true y_pred : list Z) (s : nat) :
  NoDup l1 → NoDup l2 →
  (∀ x, x ∈ l1 ↔ x ∈ y_true) → (∀ x, x ∈ l2 ↔ x ∈ y_pred) →
  length l1 = length l2 →
  injection (λ b, lab (rotate s l1) (index_of l2 b)) y_pred y_true.
Proof.
  intros Hnd1 Hnd2 Hl1 Hl2 Hk. split.
  - intros b Hb. apply Hl1. rewrite <- (elem_of_rotate l1 s).
    apply lab_elem_of. rewrite length_rotate, Hk. apply index_of_lt. by apply Hl2.
  - intros b b' Hb Hb' Heq. apply Hl2 in Hb, Hb'.
    apply lab_inj in Heq.
    + rewrite <- (lab_index_of l2 b), <- (lab_index_of l2 b') by done. by rewrite Heq.
    + by rewrite rotate_Permutation.
    + rewrite length_rotate, Hk. by apply index_of_lt.
    + rewrite length_rotate, Hk. by apply index_of_lt.
Qed.

(** No injection of the labels agreeing on more than [N] positions, there
    are at most [N] positions per class. *)
Lemma best_injection_average (y_true y_pred : list Z) (N : nat) :
  length y_true = length y_pred → distinct y_true = distinct y_pred →
  (∀ σ, injection σ y_pred y_true → matches σ y_true y_pred ≤ N)%nat →
  (length y_true ≤ distinct y_true * N)%nat.
Proof.
  intros Hn Hcard Hmax.
  set (l1 := remove_dups y_true). set (l2 := remove_dups y_pred).
  assert (Hnd1 : NoDup l1) by apply NoDup_remove_dups.
  assert (Hnd2 : NoDup l2) by apply NoDup_remove_dups.
  assert (Hl1 : ∀ x, x ∈ l1 ↔ x ∈ y_true) by (intros; apply elem_of_remove_dups).
  assert (Hl2 : ∀ x, x ∈ l2 ↔ x ∈ y_pred) by (intros; apply elem_of_remove_dups).
  assert (Hk1 : length l1 = distinct y_true) by (by apply distinct_NoDup).
  assert (Hk2 : length l2 = distinct y_pred) by (by apply distinct_NoDup).
  assert (Hk : length l1 = length l2) by congruence.
  set (σ := λ (s : nat) (b : Z), lab (rotate s l1) (index_of l2 b)).
  assert (Hsum : sum_list_with (λ s, matches (σ s) y_true y_pred) (seq 0 (length l1))
                 = length y_true).
  { rewrite (sum_list_with_ext _
      (λ s, sum_list_with (λ b, cnt y_true y_pred (σ s b) b) l2)).
    2:{ intros s _. apply matches_by_label; [done|]. intros b. apply Hl2. }
    rewrite sum_list_with_swap.
    rewrite (sum_list_with_ext _
      (λ b, sum_list_with (λ a, cnt y_true y_pred a b) l1)).
    2:{ intros b Hb.
        trans (sum_list_with (λ a, cnt y_true y_pred a b) (rotate (index_of l2 b) l1));
          [|by rewrite rotate_Permutation].
        rewrite <- (lab_seq (rotate (index_of l2 b) l1)).
        rewrite sum_list_with_fmap, length_rotate.
        apply sum_list_with_ext. intros s Hs. simpl. unfold σ.
        rewrite lab_rotate; [done| |].
        - apply elem_of_seq in Hs. lia.
        - rewrite Hk. by apply index_of_lt. }
    rewrite <- sum_list_with_swap.
    rewrite (sum_list_with_ext _
      (λ a, length (filter (λ p : Z * Z, p.1 = a) (zip y_true y_pred)))).
    2:{ intros a _. apply cnt_by_pred_label; [done|]. intros b. apply Hl2. }
    rewrite count_by_true_label; [rewrite length_zip; lia|done|].
    intros [a b] Hp. apply Hl1. simpl. by apply elem_of_zip_l in Hp. }
  rewrite <- Hsum, <- Hk1.
  etrans; [apply (sum_list_with_bound _ _ N)|by rewrite length_seq].
  intros s _. apply Hmax. by apply rotation_injection.
Qed.

Lemma assign_at_length ai c a : length (assign_at ai c a) = length a.
Proof.
  unfold assign_at. revert a. induction ai as [|k ai IH]; intros a; simpl; [done|].
  by rewrite IH, length_insert.
Qed.

Section Returned.
Context {dt : Dtype} {py : PySet} {py_laws : PySetLaws py}
        {solver : Solver} {solver_laws : SolverLaws solver}.

Lemma remap_loop_length l2 indexes y_pred (ics : list (nat * Z)) st new_predict :
  foldl (remap_step l2 indexes y_pred) st ics = Some new_predict →
  ∃ np0, st = Some np0 ∧ length new_predict = length np0.
Proof.
  revert st. induction ics as [|ic ics IH]; intros st Hrun; simpl in Hrun.
  - by exists new_predict.
  - destruct (IH _ Hrun) as (np1 & Hstep & Hlen).
    unfold remap_step in Hstep. destruct st as [np0|]; [|done].
    exists np0. split; [done|]. simpl in Hstep.
    destruct (indexes !! ic.1) as [rc|]; [|done]. simpl in Hstep.
    destruct (l2 !! rc.2) as [c2|]; [|done]. simpl in Hstep.
    injection Hstep as <-. by rewrite Hlen, assign_at_length.
Qed.

Lemma remap_length l1 l2 indexes y_pred new_predict :
  remap l1 l2 indexes y_pred = Some new_predict →
  length new_predict = length y_pred.
Proof.
  intros Hrun. apply remap_loop_length in Hrun as (np0 & [= <-] & ->).
  apply length_replicate.
Qed.

(** The scoring returns only for arrays of one length. *)
Lemma score_returned l1 l2 y_true y_pred v :
  score l1 l2 y_true y_pred = Return v → length y_true = length y_pred.
Proof.
  unfold score. case_decide; [done|].
  destruct (remap _ _ _ _) as [new_predict|] eqn:Hremap; [|done].
  case_decide; [|done]. intros _. apply remap_length in Hremap. congruence.
Qed.

(** What a call that returns a pair has gone through. *)
Lemma cluster_acc_returned y_true y_pred acc f1 :
  result (cluster_acc y_true y_pred) = Return (acc, f1) →
  ∃ m, np_min y_true = Some m ∧ length y_true = length y_pred ∧
    let y_true' := (λ x, x - m) <$> y_true in
    let y_pred' := reconciled y_true y_pred in
    distinct y_true = distinct y_pred' ∧
    cluster_acc y_true y_pred = mkRun (Return (acc, f1)) [] y_pred' ∧
    score (set_list y_true') (set_list y_pred') y_true' y_pred' = Return (acc, f1).
Proof.
  unfold cluster_acc, reconciled.
  destruct (np_min y_true) as [m|] eqn:Hmin; [|done]. simpl.
  destruct (reconcile _ _ y_pred) as [y_pred' [e|]] eqn:Hrec; [done|]. simpl.
  case_decide as Hk; [done|]. simpl. intros Hscore. exists m.
  assert (Hlen : length y_pred' = length y_pred).
  { replace y_pred' with (reconcile (set_list ((λ x, x - m) <$> y_true))
                            (set_list y_pred) y_pred).1 by (by rewrite Hrec).
    unfold reconcile. case_decide; [|done]. apply relabel_missing_length. }
  split; [done|]. split.
  { apply score_returned in Hscore. rewrite length_fmap in Hscore. congruence. }
  split; [|by rewrite Hscore].
  rewrite !length_set_list in Hk.
  by rewrite distinct_fmap_inj in Hk by (intros; lia).
Qed.

(** X4. Whenever a pair is returned, the accuracy is at least one over the
    number of classes, and at most 1. *)
Theorem cluster_acc_accuracy_bounds (y_true y_pred : list Z) (acc f1 : Q) :
  result (cluster_acc y_true y_pred) = Return (acc, f1) →
  (1 # Pos.of_nat (distinct y_true) <= acc)%Q ∧ (acc <= 1)%Q.
Proof.
  intros Hres.
  destruct (cluster_acc_returned _ _ _ _ Hres) as (m & Hmin & Hn & Hcard & _ & Hscore).
  set (y_true' := (λ x, x - m) <$> y_true) in *.
  set (y_pred' := reconciled y_true y_pred) in *.
  assert (Hn' : length y_true' = length y_pred').
  { unfold y_true', y_pred'. by rewrite length_fmap, reconciled_length. }
  assert (Hcard' : distinct y_true' = distinct y_pred').
  { unfold y_true'. by rewrite distinct_fmap_inj by (intros; lia). }
  destruct (score_spec (set_list y_true') (set_list y_pred') y_true' y_pred')
    as (Hscore' & _ & Hmax);
    [apply set_list_NoDup|apply set_list_NoDup|apply set_list_elem|apply set_list_elem
    |by rewrite !length_set_list|done|].
  rewrite Hscore in Hscore'. injection Hscore' as -> _.
  unfold accuracy_score. rewrite agree_fmap.
  set (τ := alignment _ _ _ _) in *.
  pose proof (best_injection_average y_true' y_pred' _ Hn' Hcard' Hmax) as Havg.
  pose proof (matches_le τ y_true' y_pred') as Hle.
  assert (Hpos : (0 < length y_true')%nat).
  { unfold y_true'. rewrite length_fmap. destruct y_true; [done|simpl; lia]. }
  assert (Hk : distinct y_true' = distinct y_true).
  { unfold y_true'. by rewrite distinct_fmap_inj by (intros; lia). }
  rewrite Hk in Havg.
  split.
  - unfold ratio, Qle. simpl.
    destruct (distinct y_true) as [|k]; [lia|].
    destruct (length y_true') as [|n]; [lia|]. nia.
  - unfold ratio, Qle. simpl. destruct (length y_true') as [|n]; [lia|]. lia.
Qed.

End Returned.

Lemma cluster_acc_accuracy_bounds_witness :
  Qle (1 # Pos.of_nat (distinct [0; 0; 1; 1; 2; 2])) (4 # 6) ∧ Qle (4 # 6) 1.
Proof.
  apply (@cluster_acc_accuracy_bounds int64 ascending_set ascending_set_laws
           exhaustive exhaustive_laws [0; 0; 1; 1; 2; 2] [2; 0; 0; 2; 1; 1] (4 # 6)
           (16384 # 24576)).
  vm_compute. reflexivity.
Defined.

(** ** When a pair is returned *)

Section Returns.
Context {dt : Dtype} {py : PySet} {py_laws : PySetLaws py}
        {solver : Solver} {solver_laws : SolverLaws solver}.


End Returns.


(** ** The repair of the class counts *)

(** Lines 103-108 in one piece: the labels of [l1] that [l2] lacks, all
    of which the array can hold, are written, in order, from index [ind]
    on, as far as the array goes. *)
Lemma relabel_missing_spec `{Dtype} (l1 l2 y_pred : list Z) (ind : nat) :
  (ind ≤ length y_pred)%nat →
  let absent := filter (λ i, i ∉ l2) l1 in
  Forall (λ i, fits i = true) absent →
  relabel_missing l1 l2 y_pred ind =
  if decide (ind + length absent ≤ length y_pred)%nat
  then (take ind y_pred ++ absent ++ drop (ind + length absent) y_pred, None)
  else (take ind y_pred ++ take (length y_pred - ind) absent, Some IndexError).
Proof.
  revert y_pred ind. induction l1 as [|i l1 IH]; intros y_pred ind Hind; simpl.
  - intros _. rewrite decide_True by lia. rewrite Nat.add_0_r. by rewrite take_drop.
  - rewrite filter_cons.
    destruct (decide (i ∈ l2)) as [Hi|Hi], (decide (i ∉ l2)) as [Hn|Hn];
      [done|by apply IH| |done].
    intros [Hfit Hfits]%Forall_cons. simpl.
    destruct (decide (ind < length y_pred)%nat) as [Hlt|Hge].
    + rewrite Hfit.
      rewrite IH by (rewrite ?length_insert; done || lia). rewrite length_insert.
      assert (Htake : take (S ind) (<[ind:=i]> y_pred) = take ind y_pred ++ [i]).
      { rewrite take_S_r with (x := i); [|by apply list_lookup_insert_eq].
        by rewrite take_insert_ge by lia. }
      destruct (decide (S ind + _ ≤ length y_pred)%nat) as [Hroom|Hroom].
      * rewrite decide_True by lia. rewrite Htake. f_equal.
        rewrite <- app_assoc. simpl. do 3 f_equal.
        rewrite drop_insert_lt by lia. f_equal. lia.
      * rewrite decide_False by lia. rewrite Htake. f_equal.
        rewrite <- app_assoc. simpl. do 2 f_equal.
        replace (length y_pred - ind)%nat with (S (length y_pred - S ind)) by lia.
        done.
    + rewrite decide_False by lia.
      replace (length y_pred - ind)%nat with 0%nat by lia.
      rewrite take_0, app_nil_r, take_ge by lia. done.
Qed.

Lemma filter_none {A} (P : A → Prop) `{∀ x, Decision (P x)} (l : list A) :
  (∀ x, x ∈ l → ¬ P x) → filter P l = [].
Proof.
  induction l as [|x l IH]; intros Hno; [done|].
  rewrite filter_cons, decide_False by (apply Hno; left).
  apply IH. intros y Hy. apply Hno. by right.
Qed.

Section Repair.
Context {dt : Dtype} {py : PySet} {py_laws : PySetLaws py}
        {solver : Solver} {solver_laws : SolverLaws solver}.

(** X6. When the class counts differ, the true labels (counted from the
    smallest) that no prediction carries, all of which fit the type of
    [y_pred], overwrite the first predictions, one each, in the order the
    set yields them; one more of them than there are predictions is an
    [IndexError], raised after the array has been filled. *)
Theorem cluster_acc_repair (y_true y_pred : list Z) (m : Z) :
  np_min y_true = Some m → distinct y_true ≠ distinct y_pred →
  let absent := filter (λ i, i ∉ y_pred) (set_list ((λ x, x - m) <$> y_true)) in
  Forall (λ i, fits i = true) absent →
  if decide (length absent ≤ length y_pred)%nat
  then y_pred_after (cluster_acc y_true y_pred)
       = absent ++ drop (length absent) y_pred
  else cluster_acc y_true y_pred
       = mkRun (Raise IndexError) [] (take (length y_pred) absent).
Proof.
  intros Hmin Hcard absent Hfits. unfold cluster_acc. rewrite Hmin. simpl.
  unfold reconcile. rewrite !length_set_list, distinct_fmap_inj by (intros; lia).
  rewrite (decide_True (P := distinct y_true ≠ distinct y_pred)) by done.
  assert (Habs : filter (λ i, i ∉ set_list y_pred)
                   (set_list ((λ x, x - m) <$> y_true)) = absent).
  { apply list_filter_iff. intros i. by rewrite set_list_elem. }
  rewrite relabel_missing_spec; [|lia|by rewrite Habs]. simpl.
  rewrite Habs, Nat.sub_0_r.
  destruct (decide (length absent ≤ length y_pred)%nat); [|done].
  by case_decide.
Qed.

(** X7. Predictions that carry every true label (counted from the smallest)
    and others besides are beyond repair: nothing is written, [error] is
    printed and [None] returned. *)
Theorem cluster_acc_surplus_clusters (y_true y_pred : list Z) (m : Z) :
  np_min y_true = Some m → (∀ a, a ∈ y_true → a - m ∈ y_pred) →
  distinct y_true ≠ distinct y_pred →
  cluster_acc y_true y_pred = mkRun ReturnNone ["error"%string] y_pred.
Proof.
  intros Hmin Hsub Hcard. unfold cluster_acc. rewrite Hmin. simpl.
  unfold reconcile. rewrite !length_set_list, distinct_fmap_inj by (intros; lia).
  rewrite decide_True by done.
  assert (Habs : filter (λ i, i ∉ set_list y_pred)
                   (set_list ((λ x, x - m) <$> y_true)) = []).
  { apply filter_none. intros i Hi Hno.
    apply Hno. apply set_list_elem. rewrite set_list_elem in Hi.
    apply list_elem_of_fmap in Hi as (a & -> & Ha). by apply Hsub. }
  rewrite relabel_missing_spec; [|lia|by rewrite Habs]. simpl.
  rewrite Habs. simpl. rewrite drop_0, length_set_list.
  by rewrite decide_True by done.
Qed.

End Repair.

Lemma cluster_acc_repair_witness :
  y_pred_after (run_cluster_acc [10; 10; 11; 12] [0; 0; 0; 1])
  = [2] ++ drop 1 [0; 0; 0; 1].
Proof.
  apply (@cluster_acc_repair int64 ascending_set ascending_set_laws exhaustive
           [10; 10; 11; 12] [0; 0; 0; 1] 10).
  - reflexivity.
  - vm_compute. discriminate.
  - repeat constructor.
Defined.

Lemma cluster_acc_surplus_clusters_witness :
  run_cluster_acc [4; 4; 5; 5] [0; 1; 2; 2]
  = mkRun ReturnNone ["error"%string] [0; 1; 2; 2].
Proof.
  apply (@cluster_acc_surplus_clusters int64 ascending_set ascending_set_laws exhaustive
           [4; 4; 5; 5] [0; 1; 2; 2] 4).
  - reflexivity.
  - intros a Ha.
    repeat (apply elem_of_cons in Ha as [->|Ha]); try (by inversion Ha);
      vm_compute; set_solver.
  - vm_compute. discriminate.
Defined.

(** ** Arrays of different lengths *)

Section Lengths.
Context {dt : Dtype} {py : PySet} {py_laws : PySetLaws py}
        {solver : Solver} {solver_laws : SolverLaws solver}.

Lemma set_list_nil : set_list [] = [].
Proof.
  destruct (set_list []) as [|x l] eqn:E; [done|].
  assert (Hx : x ∈ set_list []) by (rewrite E; left).
  rewrite set_list_elem in Hx. inversion Hx.
Qed.

(** X8. Without predictions there is no place for the first missing label:
    line 107 raises [IndexError]. *)
Theorem cluster_acc_no_predictions (y_true : list Z) :
  y_true ≠ [] → cluster_acc y_true [] = mkRun (Raise IndexError) [] [].
Proof.
  intros Hne. destruct (np_min_Some y_true Hne) as [m Hm].
  unfold cluster_acc. rewrite Hm. simpl. unfold reconcile.
  rewrite set_list_nil.
  destruct (set_list ((λ x, x - m) <$> y_true)) as [|i l1] eqn:E.
  - exfalso. destruct y_true as [|a y_true]; [done|].
    assert (Ha : a - m ∈ set_list ((λ x, x - m) <$> a :: y_true)).
    { apply set_list_elem. left. }
    rewrite E in Ha. inversion Ha.
  - done.
Qed.

(** X9. With equally many classes on both sides, fewer predictions than true
    labels end in the [IndexError] of line 118, more of them in the
    [ValueError] of [accuracy_score]. *)
Theorem cluster_acc_length_mismatch (y_true y_pred : list Z) :
  y_true ≠ [] → distinct y_true = distinct y_pred →
  ((length y_pred < length y_true)%nat →
   cluster_acc y_true y_pred = mkRun (Raise IndexError) [] y_pred) ∧
  ((length y_true < length y_pred)%nat →
   cluster_acc y_true y_pred = mkRun (Raise ValueError) [] y_pred).
Proof.
  intros Hne Hcard. destruct (np_min_Some y_true Hne) as [m Hm].
  rewrite (cluster_acc_equal_counts _ _ m) by done. simpl.
  set (y_true' := (λ x, x - m) <$> y_true).
  set (l1 := set_list y_true'). set (l2 := set_list y_pred).
  assert (Hn' : length y_true' = length y_true) by apply length_fmap.
  unfold score. rewrite Hn'. split; intros Hlt.
  - by rewrite decide_True.
  - rewrite decide_False by lia.
    assert (Hk : length l1 = length l2).
    { unfold l1, l2, y_true'. rewrite !length_set_list.
      by rewrite distinct_fmap_inj by (intros; lia). }
    set (M := neg (cost_matrix l1 l2 y_true' y_pred)).
    assert (Hsq : square M) by (by apply square_neg_cost).
    assert (HM : length M = length l1) by apply length_neg_cost.
    pose proof (compute_rows M Hsq) as Hrows.
    pose proof (compute_cols M Hsq) as Hcols.
    rewrite HM in Hrows, Hcols.
    rewrite remap_spec.
    + rewrite length_fmap. by rewrite decide_False by lia.
    + rewrite <- (length_fmap fst (compute M)), Hrows, length_seq. done.
    + apply Forall_forall. intros rc Hrc.
      assert (Hin : rc.2 ∈ (compute M).*2) by (by apply list_elem_of_fmap_2).
      rewrite Hcols in Hin. apply elem_of_seq in Hin. lia.
Qed.

End Lengths.

Lemma cluster_acc_no_predictions_witness :
  run_cluster_acc [0; 1] [] = mkRun (Raise IndexError) [] [].
Proof.
  apply (@cluster_acc_no_predictions int64 ascending_set ascending_set_laws exhaustive).
  discriminate.
Defined.

Lemma cluster_acc_length_mismatch_witness :
  run_cluster_acc [0; 0; 1; 1] [0; 1; 1] = mkRun (Raise IndexError) [] [0; 1; 1] ∧
  run_cluster_acc [0; 1; 1] [0; 0; 1; 1] = mkRun (Raise ValueError) [] [0; 0; 1; 1].
Proof.
  split.
  - apply (@cluster_acc_length_mismatch int64 ascending_set ascending_set_laws
             exhaustive exhaustive_laws [0; 0; 1; 1] [0; 1; 1]).
    + discriminate.
    + vm_compute. reflexivity.
    + simpl. lia.
  - apply (@cluster_acc_length_mismatch int64 ascending_set ascending_set_laws
             exhaustive exhaustive_laws [0; 1; 1] [0; 0; 1; 1]).
    + discriminate.
    + vm_compute. reflexivity.
    + simpl. lia.
Defined.

(** ** The two arguments exchanged *)





Section Symmetry.
Context {dt : Dtype} {py : PySet} {py_laws : PySetLaws py}
        {solver : Solver} {solver_laws : SolverLaws solver}.


End Symmetry.


(** ** The order of the samples *)




Section SampleOrder.
Context {dt : Dtype} {py : PySet} {py_laws : PySetLaws py}
        {solver : Solver} {solver_laws : SolverLaws solver}.


End SampleOrder.


(** ** The set order and the solver *)




(** * Proofs: evaluation *)


Section Evaluation.
Context {dt : Dtype} {py : PySet} {py_laws : PySetLaws py}
        {solver : Solver} {solver_laws : SolverLaws solver}.
Context {M : Type} {sk : Sklearn M}.

(** X13. When the class counts still differ after the repair, every label
    it wrote fitting the type of [y_pred], [eva] has no pair to unpack:
    [error] is printed, the call ends in a [TypeError], and the caller's
    predictions keep what the repair wrote. *)
Theorem eva_count_mismatch (y_true y_pred : list Z) (show_details : bool) :
  length y_true = length y_pred → writable y_true y_pred →
  distinct (reconciled y_true y_pred) ≠ distinct y_true →
  eva y_true y_pred show_details
  = mkEvaRun TypeError ["error"%string] (reconciled y_true y_pred).
Proof.
  intros Hn Hw Hcard. unfold eva.
  destruct (np_min y_true) as [m|] eqn:Hmin.
  - rewrite (cluster_acc_after_reconcile _ _ m) by done. simpl.
    rewrite !length_set_list, distinct_fmap_inj by (intros; lia).
    by rewrite decide_True by (intros Heq; by apply Hcard).
  - apply np_min_None in Hmin. subst y_true. destruct y_pred; [|done].
    exfalso. by apply Hcard.
Qed.


(** X15. Whenever [eva] returns, accuracy and f1 are those of [cluster_acc],
    while the two sklearn scores compare the ground truth as passed with the
    predictions as [cluster_acc] left them, repaired or not. *)
Theorem eva_after_repair (y_true y_pred : list Z) (show_details : bool)
    (acc : Q) (nmi ari : M) (f1 : Q) :
  eva_result (eva y_true y_pred show_details) = Scores acc nmi ari f1 →
  let y_pred' := reconciled y_true y_pred in
  result (cluster_acc y_true y_pred) = Return (acc, f1) ∧
  nmi = nmi_score y_true y_pred' ∧ ari = ari_score y_true y_pred' ∧
  eva_y_pred_after (eva y_true y_pred show_details) = y_pred' ∧
  eva_printed (eva y_true y_pred show_details)
  = (if show_details then [details acc nmi ari f1] else []).
Proof.
  unfold eva.
  destruct (result (cluster_acc y_true y_pred)) as [[acc' f1']| |e] eqn:Hres;
    [|done|done].
  simpl. intros [= <- <- <- <-].
  destruct (cluster_acc_returned _ _ _ _ Hres) as (m & _ & _ & _ & Hrun & _).
  rewrite Hrun. simpl. done.
Qed.

End Evaluation.

Lemma eva_count_mismatch_witness :
  run_eva [0; 0; 1] [5; 5; 5] true = mkEvaRun TypeError ["error"%string] [0; 1; 5].
Proof.
  apply (@eva_count_mismatch int64 ascending_set ascending_set_laws exhaustive
           _ symbolic [0; 0; 1] [5; 5; 5] true).
  - reflexivity.
  - intros m a [= <-] Ha _.
    repeat (apply elem_of_cons in Ha as [->|Ha]); try (by inversion Ha); reflexivity.
  - vm_compute. discriminate.
Defined.


Lemma eva_after_repair_witness :
  result (run_cluster_acc [10; 10; 11; 12] [0; 0; 0; 1]) = Return (3 # 4, 168 # 216) ∧
  ([10; 10; 11; 12], [2; 0; 0; 1]) = ([10; 10; 11; 12], [2; 0; 0; 1]) ∧
  ([10; 10; 11; 12], [2; 0; 0; 1]) = ([10; 10; 11; 12], [2; 0; 0; 1]) ∧
  eva_y_pred_after (run_eva [10; 10; 11; 12] [0; 0; 0; 1] false) = [2; 0; 0; 1] ∧
  eva_printed (run_eva [10; 10; 11; 12] [0; 0; 0; 1] false) = [].
Proof.
  apply (@eva_after_repair int64 ascending_set ascending_set_laws exhaustive
           _ symbolic [10; 10; 11; 12] [0; 0; 0; 1] false (3 # 4)
           ([10; 10; 11; 12], [2; 0; 0; 1]) ([10; 10; 11; 12], [2; 0; 0; 1]) (168 # 216)).
  vm_compute. reflexivity.
Defined.

(** * Proofs: soft assignment and target distribution *)

(** ** The assertion of [q_distribute] *)

Lemma gt_zero_nonpositive x : SFltb fzero x = false ↔ nonpositive x.
Proof.
  unfold nonpositive, fzero.
  destruct x as [[|]|[|]| |[|] m e]; cbn; intuition congruence.
Qed.

Lemma fmin2_gt_zero a b : gt_zero (fmin2 a b) ↔ gt_zero a ∧ gt_zero b.
Proof.
  unfold gt_zero, fmin2, fzero.
  destruct a as [[|]|[|]| |[|] ma ea], b as [[|]|[|]| |[|] mb eb]; cbn;
    try (intuition congruence).
  all: match goal with |- context [if ?c then _ else _] => destruct c end;
    cbn; intuition congruence.
Qed.

Lemma foldl_fmin2_gt_zero x r :
  gt_zero (foldl fmin2 x r) ↔ gt_zero x ∧ Forall gt_zero r.
Proof.
  revert x. induction r as [|y r IH]; intros x; simpl.
  - split; [by split|by intros [? _]].
  - rewrite IH, fmin2_gt_zero, Forall_cons. tauto.
Qed.

Lemma Forall_mjoin {A} (P : A → Prop) (ls : list (list A)) :
  Forall P (mjoin ls) ↔ Forall (Forall P) ls.
Proof.
  induction ls as [|l ls IH]; simpl.
  - split; constructor.
  - by rewrite Forall_app, Forall_cons, IH.
Qed.

Lemma tmin_gt_zero t m :
  tmin t = Some m → (gt_zero m ↔ Forall (Forall gt_zero) t).
Proof.
  unfold tmin. rewrite <- Forall_mjoin.
  destruct (mjoin t) as [|x r]; [done|]. intros [= <-].
  by rewrite foldl_fmin2_gt_zero, Forall_cons.
Qed.

Lemma tmin_is_Some (t : list (list spec_float)) row x :
  row ∈ t → x ∈ row → is_Some (tmin t).
Proof.
  intros Hrow Hx. unfold tmin.
  assert (Hin : x ∈ mjoin t) by (apply list_elem_of_join; eauto).
  destruct (mjoin t); [inversion Hin|by eexists].
Qed.

Section Assertion.
Variables prec emax : Z.
Variable tsum : list spec_float → spec_float.

Lemma kernel_is_Some emb centers :
  emb ≠ [] → centers ≠ [] → is_Some (tmin (kernel prec emax tsum emb centers)).
Proof.
  destruct emb as [|z emb]; [done|]. destruct centers as [|c centers]; [done|].
  intros _ _. unfold kernel. csimpl. eapply tmin_is_Some; left.
Qed.

Lemma q_distribute_broadcast emb centers :
  broadcastable emb centers →
  q_distribute prec emax tsum emb centers =
  let q := kernel prec emax tsum emb centers in
  match tmin q with
  | None => Raise RuntimeError
  | Some m =>
      if SFltb fzero m
      then Return (div_rows prec emax q (sum1 tsum q))
      else Raise AssertionError
  end.
Proof. intros Hb. unfold q_distribute. by rewrite decide_True. Qed.

Lemma kernel_is_None emb centers :
  emb = [] ∨ centers = [] → tmin (kernel prec emax tsum emb centers) = None.
Proof.
  intros [->| ->]; [done|]. unfold tmin, kernel.
  assert (Hnil : mjoin ((λ _ : list spec_float, @nil spec_float) <$> emb) = []).
  { induction emb as [|z emb IH]; [done|]. csimpl. by rewrite IH. }
  csimpl. by rewrite Hnil.
Qed.

(** C7 (amended). [q_distribute] fails in two ways.  It raises the
    [RuntimeError] of the tensor library exactly when there is no sample,
    no center, or a sample and a center whose lengths cannot be broadcast;
    otherwise it fails, by its assertion, exactly when some entry of the
    kernel matrix is [<= 0] or not a number.  In all other cases it
    returns the row-normalised kernel, so it returns only when every
    kernel entry is positive. *)
Theorem q_distribute_assertion (emb centers : list (list spec_float)) :
  let q := kernel prec emax tsum emb centers in
  let out := q_distribute prec emax tsum emb centers in
  (out = Raise RuntimeError
   ↔ emb = [] ∨ centers = [] ∨ ¬ broadcastable emb centers) ∧
  (out = Raise AssertionError
   ↔ emb ≠ [] ∧ centers ≠ [] ∧ broadcastable emb centers ∧
     ∃ row x, row ∈ q ∧ x ∈ row ∧ nonpositive x) ∧
  (out = Raise RuntimeError ∨ out = Raise AssertionError ∨
   out = Return (div_rows prec emax q (sum1 tsum q))) ∧
  (∀ Q, out = Return Q → Forall (Forall gt_zero) q).
Proof.
  intros q out. unfold out.
  destruct (decide (broadcastable emb centers)) as [Hb|Hb].
  2:{ unfold q_distribute. rewrite decide_False by done.
      split; [|split; [|split]]; [split; auto| |by left|done].
      split; [done|]. by intros (_ & _ & ? & _). }
  rewrite (q_distribute_broadcast emb centers Hb). simpl. fold q.
  destruct (decide (emb = [] ∨ centers = [])) as [Hempty|Hfull].
  { unfold q. rewrite (kernel_is_None emb centers Hempty).
    split; [|split; [|split]]; [split; [tauto|done]| |by left|done].
    split; [done|]. intros (? & ? & _). tauto. }
  assert (HZ : emb ≠ []) by tauto. assert (HC : centers ≠ []) by tauto.
  destruct (kernel_is_Some emb centers HZ HC) as [m Hm].
  fold q in Hm.
  pose proof (tmin_gt_zero q m Hm) as Hall. unfold gt_zero at 1 in Hall.
  rewrite Hm.
  destruct (SFltb fzero m) eqn:Hlt.
  - split; [|split; [|split]].
    + split; [done|]. tauto.
    + split; [done|]. intros (_ & _ & _ & row & x & Hrow & Hx & Hbad).
      apply gt_zero_nonpositive in Hbad.
      destruct Hall as [Hall _]. specialize (Hall eq_refl).
      rewrite Forall_forall in Hall. specialize (Hall row Hrow).
      rewrite Forall_forall in Hall. specialize (Hall x Hx).
      unfold gt_zero in Hall. congruence.
    + by right; right.
    + intros Q _. by apply Hall.
  - split; [|split; [|split]].
    + split; [done|]. tauto.
    + split; [|done]. intros _. split; [done|]. split; [done|]. split; [done|].
      destruct (decide (Forall (Forall gt_zero) q)) as [Hok|Hbad].
      { apply Hall in Hok. congruence. }
      apply not_Forall_Exists in Hbad; [|apply _].
      apply Exists_exists in Hbad as (row & Hrow & Hbad).
      apply not_Forall_Exists in Hbad; [|apply _].
      apply Exists_exists in Hbad as (x & Hx & Hbad).
      exists row, x. split; [done|]. split; [done|].
      apply gt_zero_nonpositive. unfold gt_zero in Hbad.
      destruct (SFltb fzero x) eqn:E; [|done]. exfalso. by apply Hbad.
    + by right; left.
    + intros Q [=].
Qed.

End Assertion.

(** ** Division by an empty cluster *)

Section EmptyCluster.
Variables prec emax : Z.
Variable tsum : list spec_float → spec_float.
Hypothesis tsum_propagates : propagates tsum.

Lemma fdiv_zero_special x s : special (fdiv prec emax x (S754_zero s)).
Proof. destruct x as [sx|sx| |sx m e]; cbn; unfold special; eauto. Qed.

Lemma fadd_special_l x y : special x → special (fadd prec emax x y).
Proof.
  intros [->|[s ->]]; [by left|].
  destruct y as [sy|sy| |sy m e]; cbn; unfold special; eauto.
  destruct s, sy; eauto.
Qed.

Lemma fadd_special_r x y : special y → special (fadd prec emax x y).
Proof.
  intros [->|[s ->]].
  - destruct x; cbn; by left.
  - destruct x as [sx|sx| |sx m e]; cbn; unfold special; eauto.
    destruct sx, s; eauto.
Qed.

Lemma fdiv_special x y : special x → special y → fdiv prec emax x y = S754_nan.
Proof. by intros [->|[s ->]] [->|[s' ->]]. Qed.

Lemma foldl_fadd_special_acc a v :
  special a → special (foldl (fadd prec emax) a v).
Proof.
  revert a. induction v as [|x v IH]; intros a Ha; [done|].
  simpl. by apply IH, fadd_special_l.
Qed.

Lemma fsum_propagates : propagates (fsum prec emax).
Proof.
  intros v x. unfold fsum. generalize fzero. intros a Hx Hsp. revert a.
  induction v as [|y v IH]; intros a; [inversion Hx|].
  simpl. apply elem_of_cons in Hx as [->|Hx].
  - by apply foldl_fadd_special_acc, fadd_special_r.
  - by apply IH.
Qed.

Lemma div_rows_sum1_lookup (W : list (list spec_float)) i :
  div_rows prec emax W (sum1 tsum W) !! i =
  (λ row, (λ x, fdiv prec emax x (tsum row)) <$> row) <$> W !! i.
Proof.
  unfold div_rows, sum1. rewrite lookup_zip_with, list_lookup_fmap.
  by destruct (W !! i).
Qed.

(** C5 (amended). When a column of [Q] sums to zero, [target_distribution]
    does not abort: it returns a matrix of the shape of [Q] in which every
    entry of that column is NaN. *)
Theorem target_distribution_empty_cluster (Q : list (list spec_float)) (j : nat) :
  Forall (λ row, length row = width Q) Q → (j < width Q)%nat →
  (∃ s, tsum (column j Q) = S754_zero s) →
  ∃ P, target_distribution prec emax tsum Q = Return P ∧
       length P = length Q ∧
       ∀ i row, P !! i = Some row → row !! j = Some S754_nan.
Proof.
  intros Hrect Hj [s Hzero]. unfold target_distribution.
  set (weight := (λ row, zip_with (λ x c, fdiv prec emax (fmul prec emax x x) c)
                                  row (sum0 tsum Q)) <$> Q).
  eexists. split; [reflexivity|]. split.
  - unfold div_rows, sum1. rewrite length_zip_with, !length_fmap.
    unfold weight. rewrite length_fmap. lia.
  - intros i prow Hi. rewrite div_rows_sum1_lookup in Hi.
    unfold weight in Hi. rewrite list_lookup_fmap in Hi.
    destruct (Q !! i) as [qrow|] eqn:Hq; [|done]. simpl in Hi. injection Hi as <-.
    assert (Hlen : length qrow = width Q).
    { rewrite Forall_forall in Hrect. apply Hrect. by eapply list_elem_of_lookup_2. }
    destruct (lookup_lt_is_Some_2 qrow j) as [x Hx]; [lia|].
    set (wrow := zip_with _ qrow _).
    assert (Hw : wrow !! j = Some (fdiv prec emax (fmul prec emax x x) (S754_zero s))).
    { unfold wrow. rewrite lookup_zip_with, Hx. simpl.
      unfold sum0. rewrite list_lookup_fmap, lookup_seq_lt by done. simpl.
      by rewrite Hzero. }
    rewrite list_lookup_fmap, Hw. simpl. f_equal.
    apply fdiv_special; [apply fdiv_zero_special|].
    eapply tsum_propagates; [by eapply list_elem_of_lookup_2|apply fdiv_zero_special].
Qed.

End EmptyCluster.

(** ** A uniform assignment *)

Lemma Qsum_replicate (k : nat) (w : Q) :
  (Qsum (replicate k w) == nat_Q k * w)%Q.
Proof.
  induction k as [|k IH].
  - simpl. unfold nat_Q. simpl. by rewrite Qmult_0_l.
  - simpl Qsum. rewrite IH. unfold nat_Q.
    rewrite Nat2Z.inj_succ, <- Z.add_1_l, inject_Z_plus. ring.
Qed.

Lemma nat_Q_pos (k : nat) : (0 < k)%nat → (0 < nat_Q k)%Q.
Proof.
  intros Hk. unfold nat_Q. replace 0%Q with (inject_Z 0) by done.
  rewrite <- Zlt_Qlt. lia.
Qed.

Lemma exact_sum0_uniform n k (r : Q) :
  exact_sum0 (uniform (S n) k r) = replicate k (Qsum (replicate (S n) r)).
Proof.
  unfold exact_sum0, uniform. cbn [replicate]. rewrite length_replicate.
  apply list_eq. intros j. rewrite list_lookup_fmap.
  destruct (decide (j < k)%nat) as [Hj|Hj].
  - rewrite lookup_seq_lt, lookup_replicate_2 by done. simpl. f_equal. f_equal.
    + by rewrite lookup_replicate_2.
    + change (list_fmap (list Q) Q ?f ?l) with (f <$> l).
      rewrite fmap_replicate. by rewrite lookup_replicate_2.
  - rewrite lookup_seq_ge by lia. symmetry. apply lookup_replicate_None. lia.
Qed.

(** The exact counterpart of [sharpened]. *)
Lemma exact_target_distribution_uniform n k (r : Q) :
  exact_target_distribution (uniform n k r)
  = Return (uniform n k
              (let w := (r * r / Qsum (replicate n r))%Q in
               (w / Qsum (replicate k w))%Q)).
Proof.
  unfold exact_target_distribution. f_equal. destruct n as [|n]; [done|].
  rewrite exact_sum0_uniform. unfold uniform at 1 2.
  rewrite !fmap_replicate, zip_with_replicate.
  unfold exact_div_rows. rewrite zip_with_replicate.
  by rewrite fmap_replicate.
Qed.

Lemma uniform_Qeq n k (a b : Q) :
  (k = 0%nat ∨ a == b)%Q → Forall2 (Forall2 Qeq) (uniform n k a) (uniform n k b).
Proof.
  intros Hab. unfold uniform. apply Forall2_replicate.
  destruct Hab as [->|Hab]; [constructor|]. by apply Forall2_replicate.
Qed.

Lemma uniform_Qeq_inv n k (a b : Q) :
  (0 < n)%nat → (0 < k)%nat →
  Forall2 (Forall2 Qeq) (uniform n k a) (uniform n k b) → (a == b)%Q.
Proof.
  destruct n as [|n]; [lia|]. destruct k as [|k]; [lia|]. intros _ _.
  unfold uniform. simpl. intros H.
  apply Forall2_cons in H as [H _]. by apply Forall2_cons in H as [H _].
Qed.

Lemma exact_sharpened n k (r : Q) :
  (0 < n)%nat → (0 < k)%nat → ¬ (r == 0)%Q →
  let w := (r * r / Qsum (replicate n r))%Q in
  (w / Qsum (replicate k w) == 1 / nat_Q k)%Q.
Proof.
  intros Hn Hk Hr w.
  pose proof (nat_Q_pos n Hn) as Hn'. pose proof (nat_Q_pos k Hk) as Hk'.
  assert (Hn0 : ¬ (nat_Q n == 0)%Q).
  { intros E. rewrite E in Hn'. by apply Qlt_irrefl in Hn'. }
  assert (Hk0 : ¬ (nat_Q k == 0)%Q).
  { intros E. rewrite E in Hk'. by apply Qlt_irrefl in Hk'. }
  assert (Hw : (w == r / nat_Q n)%Q).
  { unfold w. rewrite Qsum_replicate. by field. }
  rewrite Qsum_replicate, Hw. by field.
Qed.

Section Uniform.
Variables prec emax : Z.
Variable tsum : list spec_float → spec_float.

Lemma sum0_uniform n k q :
  sum0 tsum (uniform (S n) k q) = replicate k (tsum (replicate (S n) q)).
Proof.
  unfold sum0, uniform. simpl width. rewrite length_replicate.
  apply list_eq. intros j. rewrite list_lookup_fmap.
  destruct (decide (j < k)%nat) as [Hj|Hj].
  - rewrite lookup_seq_lt, lookup_replicate_2 by done. simpl. f_equal. f_equal.
    unfold column. rewrite fmap_replicate. by rewrite lookup_replicate_2.
  - rewrite lookup_seq_ge by lia. symmetry. apply lookup_replicate_None. lia.
Qed.

(** C9 (amended). The sharpened uniform matrix is uniform again: every
    entry of [target_distribution] of the [n] by [k] matrix with all
    entries [q] is the one rounded value [sharpened n k q].  In exact
    arithmetic, the same lines over the rationals, that value is [1/k]
    whatever the entry [r <> 0] was, so the uniform matrix is a fixed
    point exactly when its entry is [1/k], that is when its rows sum to
    [1].  The rounded value need not be [q], also when [q] is the rounded
    [1/k]. *)
Theorem target_distribution_uniform (n k : nat) (q : spec_float) (r : Q) :
  target_distribution prec emax tsum (uniform n k q)
  = Return (uniform n k (sharpened prec emax tsum n k q)) ∧
  ((0 < n)%nat → (0 < k)%nat → ¬ (r == 0)%Q →
   ∃ E, exact_target_distribution (uniform n k r) = Return E ∧
        Forall2 (Forall2 Qeq) E (uniform n k (1 / nat_Q k)%Q) ∧
        (Forall2 (Forall2 Qeq) E (uniform n k r) ↔ (r == 1 / nat_Q k)%Q)).
Proof.
  split.
  { unfold target_distribution. f_equal. destruct n as [|n]; [done|].
    rewrite sum0_uniform. unfold uniform at 1 2.
    rewrite !fmap_replicate, zip_with_replicate.
    unfold div_rows, sum1. rewrite fmap_replicate, zip_with_replicate.
    by rewrite fmap_replicate. }
  intros Hn Hk Hr. rewrite exact_target_distribution_uniform.
  eexists. split; [done|].
  pose proof (exact_sharpened n k r Hn Hk Hr) as Hs. simpl in Hs.
  split; [apply uniform_Qeq; by right|]. split.
  - intros H%uniform_Qeq_inv; [|done..]. by rewrite <- H, Hs.
  - intros Hfix. apply uniform_Qeq. right. simpl. by rewrite Hs, Hfix.
Qed.

End Uniform.

(** ** Shapes *)

Section Shapes.
Variables prec emax : Z.
Variable tsum : list spec_float → spec_float.

Lemma kernel_shape emb centers :
  length (kernel prec emax tsum emb centers) = length emb ∧
  Forall (λ row, length row = length centers) (kernel prec emax tsum emb centers).
Proof.
  unfold kernel. split; [by rewrite length_fmap|].
  apply Forall_fmap, Forall_forall. intros z _. simpl. by rewrite length_fmap.
Qed.

Lemma div_rows_sum1 (W : list (list spec_float)) :
  div_rows prec emax W (sum1 tsum W)
  = (λ row, (λ x, fdiv prec emax x (tsum row)) <$> row) <$> W.
Proof.
  apply list_eq. intros i. rewrite div_rows_sum1_lookup.
  by rewrite list_lookup_fmap.
Qed.

(** The tensor has no entry exactly when a dimension is [0]. *)
Lemma tmin_kernel_None emb centers :
  tmin (kernel prec emax tsum emb centers) = None ↔ emb = [] ∨ centers = [].
Proof.
  split.
  - intros Hnone. destruct emb as [|z emb]; [by left|].
    destruct centers as [|c centers]; [by right|].
    destruct (kernel_is_Some prec emax tsum (z :: emb) (c :: centers)) as [m Hm];
      [done|done|congruence].
  - intros [->| ->]; [done|]. unfold tmin, kernel.
    assert (Hnil : mjoin ((λ _ : list spec_float, @nil spec_float) <$> emb) = []).
    { induction emb as [|z emb IH]; [done|]. csimpl. by rewrite IH. }
    csimpl. by rewrite Hnil.
Qed.

Lemma common_dimension {A} (emb centers : list (list A)) (d : nat) :
  Forall (λ z, length z = d) emb → Forall (λ c, length c = d) centers →
  broadcastable emb centers.
Proof.
  intros Hemb Hcen. unfold broadcastable.
  eapply Forall_impl; [exact Hemb|]. intros z Hz. simpl in Hz.
  eapply Forall_impl; [exact Hcen|]. intros c Hc. simpl in Hc.
  left. congruence.
Qed.

(** X16. [q_distribute] raises the [RuntimeError] of [min()] exactly when
    there is no sample or no center ([d] is the common length of the samples
    and of the centers). *)
Theorem q_distribute_empty (emb centers : list (list spec_float)) (d : nat) :
  Forall (λ z, length z = d) emb → Forall (λ c, length c = d) centers →
  q_distribute prec emax tsum emb centers = Raise RuntimeError
  ↔ emb = [] ∨ centers = [].
Proof.
  intros Hemb Hcen. rewrite <- tmin_kernel_None.
  rewrite q_distribute_broadcast by (by eapply common_dimension). simpl.
  destruct (tmin _) as [m|]; [|done].
  destruct (SFltb fzero m); split; done.
Qed.

(** X17. What [q_distribute] returns has one row per sample and one column
    per center. *)
Theorem q_distribute_shape (emb centers Q : list (list spec_float)) :
  q_distribute prec emax tsum emb centers = Return Q →
  length Q = length emb ∧ Forall (λ row, length row = length centers) Q.
Proof.
  unfold q_distribute. case_decide; [|done].
  destruct (tmin _) as [m|]; [|done].
  destruct (SFltb fzero m); [|done]. intros [= <-].
  rewrite div_rows_sum1. destruct (kernel_shape emb centers) as [Hlen Hrows].
  split; [by rewrite length_fmap|].
  apply Forall_fmap. eapply Forall_impl; [exact Hrows|].
  intros row Hrow. simpl. by rewrite length_fmap.
Qed.

(** X18. The target distribution of a rectangular matrix is returned, and
    has the shape of the matrix. *)
Theorem target_distribution_shape (Q : list (list spec_float)) :
  Forall (λ row, length row = width Q) Q →
  ∃ P, target_distribution prec emax tsum Q = Return P ∧
       length P = length Q ∧ Forall (λ row, length row = width Q) P.
Proof.
  intros Hrect. unfold target_distribution. eexists. split; [reflexivity|].
  rewrite div_rows_sum1. split; [by rewrite !length_fmap|].
  rewrite <- list_fmap_compose. apply Forall_fmap.
  eapply Forall_impl; [exact Hrect|]. intros row Hrow. unfold compose.
  cbv beta in Hrow. rewrite length_fmap, length_zip_with. unfold sum0.
  rewrite length_fmap, length_seq. lia.
Qed.

End Shapes.

(** ** Values that are not finite *)

Lemma fsub_special_l prec emax x y : special x → special (fsub prec emax x y).
Proof.
  intros [->|[s ->]]; [by left|].
  destruct y as [sy|sy| |sy m e]; cbn; unfold special; eauto.
  destruct s, sy; eauto.
Qed.

Lemma fsub_special_r prec emax x y : special y → special (fsub prec emax x y).
Proof.
  intros [->|[s ->]].
  - destruct x; cbn; by left.
  - destruct x as [sx|sx| |sx m e]; cbn; unfold special; eauto.
    destruct sx, s; eauto.
Qed.

Lemma fmul_special prec emax d : special d → special (fmul prec emax d d).
Proof. intros [->|[s ->]]; cbn; unfold special; eauto. Qed.

Lemma fdiv_by_special prec emax x y :
  special y → nonpositive (fdiv prec emax x y).
Proof.
  intros [->|[s ->]].
  - destruct x; cbn; by right.
  - destruct x as [sx|sx| |sx m e]; cbn; unfold nonpositive; eauto;
      left; by destruct (xorb sx s).
Qed.

Lemma fdiv_nan_r prec emax x : fdiv prec emax x S754_nan = S754_nan.
Proof. by destruct x. Qed.

Lemma fsum_propagates_nan prec emax : propagates_nan (fsum prec emax).
Proof.
  intros v. unfold fsum. generalize fzero.
  induction v as [|y v IH]; intros a Hin; [inversion Hin|].
  simpl. apply elem_of_cons in Hin as [<-|Hin].
  - assert (Ha : fadd prec emax a S754_nan = S754_nan) by (by destruct a).
    rewrite Ha. clear. induction v as [|x v IH]; [done|]. simpl. exact IH.
  - by apply IH.
Qed.

Lemma broadcast_same_length {A} (z c : list A) :
  length z = length c → broadcast z c = zip z c.
Proof.
  destruct z as [|a [|a' z]], c as [|b [|b' c]]; simpl; intros Hlen; done.
Qed.

Section NonFinite.
Variables prec emax : Z.
Variable tsum : list spec_float → spec_float.

Lemma sq_dist_special (z c : list spec_float) :
  propagates tsum → length z = length c →
  (∃ x, (x ∈ z ∨ x ∈ c) ∧ special x) →
  special (sq_dist prec emax tsum z c).
Proof.
  intros Hprop Hlen (x & Hin & Hx). unfold sq_dist.
  assert (Hpos : ∃ p a b, z !! p = Some a ∧ c !! p = Some b ∧ (special a ∨ special b)).
  { destruct Hin as [Hin|Hin]; apply list_elem_of_lookup_1 in Hin as [p Hp].
    - destruct (lookup_lt_is_Some_2 c p) as [b Hb].
      { rewrite <- Hlen. by eapply lookup_lt_Some. }
      exists p, x, b. eauto.
    - destruct (lookup_lt_is_Some_2 z p) as [a Ha].
      { rewrite Hlen. by eapply lookup_lt_Some. }
      exists p, a, x. eauto. }
  destruct Hpos as (p & a & b & Ha & Hb & Hab).
  set (dd := fsub prec emax a b).
  apply (Hprop _ (fmul prec emax dd dd)).
  - rewrite broadcast_same_length by done.
    apply list_elem_of_fmap. exists (a, b). split; [done|].
    apply list_elem_of_lookup_2 with p. by apply lookup_zip_Some.
  - apply fmul_special. destruct Hab; [by apply fsub_special_l|by apply fsub_special_r].
Qed.

(** X19. An infinity or a NaN among the coordinates of a sample or of a
    center fails the assertion ([d] is the common length of the samples and
    of the centers). *)
Theorem q_distribute_nonfinite (emb centers : list (list spec_float)) (d : nat) :
  propagates tsum →
  Forall (λ z, length z = d) emb → Forall (λ c, length c = d) centers →
  emb ≠ [] → centers ≠ [] →
  (∃ row x, (row ∈ emb ∨ row ∈ centers) ∧ x ∈ row ∧ special x) →
  q_distribute prec emax tsum emb centers = Raise AssertionError.
Proof.
  intros Hprop Hemb Hcen Hne Hnc (row & x & Hrow & Hx & Hsp).
  rewrite Forall_forall in Hemb, Hcen.
  assert (Hpair : ∃ z c, z ∈ emb ∧ c ∈ centers ∧ ∃ x, (x ∈ z ∨ x ∈ c) ∧ special x).
  { destruct Hrow as [Hrow|Hrow].
    - destruct centers as [|c centers]; [done|].
      exists row, c. split; [done|]. split; [left|]. eauto.
    - destruct emb as [|z emb]; [done|].
      exists z, row. split; [left|]. split; [done|]. eauto. }
  destruct Hpair as (z & c & Hz & Hc & Hbad).
  assert (Hsq : special (sq_dist prec emax tsum z c)).
  { apply sq_dist_special; [done| |done]. by rewrite (Hemb z Hz), (Hcen c Hc). }
  set (q := kernel prec emax tsum emb centers).
  set (e := fdiv prec emax (fone prec emax)
              (fadd prec emax (fone prec emax) (sq_dist prec emax tsum z c))).
  assert (He : nonpositive e) by (by apply fdiv_by_special, fadd_special_r).
  assert (Hin : ∃ krow, krow ∈ q ∧ e ∈ krow).
  { exists ((λ c, fdiv prec emax (fone prec emax)
                    (fadd prec emax (fone prec emax) (sq_dist prec emax tsum z c)))
            <$> centers). split.
    - unfold q, kernel. apply list_elem_of_fmap. by exists z.
    - apply list_elem_of_fmap. by exists c. }
  destruct Hin as (krow & Hkrow & Hek).
  destruct (kernel_is_Some prec emax tsum emb centers Hne Hnc) as [m Hm].
  rewrite q_distribute_broadcast
    by (apply (common_dimension _ _ d); by apply Forall_forall).
  simpl. fold q in Hm |- *. rewrite Hm.
  destruct (SFltb fzero m) eqn:Hpos; [|done]. exfalso.
  pose proof (proj1 (tmin_gt_zero _ _ Hm) Hpos) as Hall.
  rewrite Forall_forall in Hall. specialize (Hall krow Hkrow).
  rewrite Forall_forall in Hall. specialize (Hall e Hek).
  apply gt_zero_nonpositive in He. unfold gt_zero in Hall. congruence.
Qed.

(** X20. One NaN in a rectangular [Q] and every entry of the target
    distribution is NaN. *)
Theorem target_distribution_nan (Q : list (list spec_float)) :
  propagates_nan tsum →
  Forall (λ row, length row = width Q) Q →
  (∃ row, row ∈ Q ∧ S754_nan ∈ row) →
  ∃ P, target_distribution prec emax tsum Q = Return P ∧
       length P = length Q ∧
       Forall (λ row, length row = width Q ∧ Forall (λ x, x = S754_nan) row) P.
Proof.
  intros Hprop Hrect (row0 & Hrow0 & Hnan). unfold target_distribution.
  eexists. split; [reflexivity|]. rewrite div_rows_sum1.
  split; [by rewrite !length_fmap|].
  apply list_elem_of_lookup_1 in Hnan as [j Hj].
  rewrite Forall_forall in Hrect.
  assert (Hjw : (j < width Q)%nat).
  { rewrite <- (Hrect row0 Hrow0). by eapply lookup_lt_Some. }
  assert (Hcol : tsum (column j Q) = S754_nan).
  { apply Hprop. unfold column.
    apply (list_elem_of_fmap_2' _ Q row0); [done|]. by rewrite Hj. }
  rewrite <- list_fmap_compose. apply Forall_fmap, Forall_forall.
  intros row Hrow. unfold compose.
  set (wrow := zip_with _ row _).
  assert (Hlen : length wrow = width Q).
  { unfold wrow. rewrite length_zip_with. unfold sum0.
    rewrite length_fmap, length_seq, (Hrect row Hrow). lia. }
  assert (Hw : S754_nan ∈ wrow).
  { destruct (lookup_lt_is_Some_2 row j) as [x Hx]; [by rewrite (Hrect row Hrow)|].
    apply list_elem_of_lookup_2 with j. unfold wrow.
    rewrite lookup_zip_with, Hx. simpl. unfold sum0.
    rewrite list_lookup_fmap, lookup_seq_lt by done. simpl.
    by rewrite Hcol, fdiv_nan_r. }
  rewrite (Hprop wrow Hw). split; [by rewrite length_fmap|].
  apply Forall_fmap, Forall_forall. intros x _. simpl. apply fdiv_nan_r.
Qed.

End NonFinite.

(** ** Signs *)

Lemma gt_zero_sign_clear x : gt_zero x → sign_clear x.
Proof. unfold gt_zero, fzero. destruct x as [[|]|[|]| |[|] m e]; cbn; done. Qed.

Lemma binary_round_aux_sign_clear prec emax m e l :
  sign_clear (binary_round_aux prec emax false m e l).
Proof.
  unfold binary_round_aux.
  destruct (shr_fexp prec emax m e l) as [mrs' e'].
  destruct (shr_fexp prec emax _ e' loc_Exact) as [mrs'' e''].
  destruct (shr_m mrs''); [done| |done].
  by destruct (_ <=? _).
Qed.

Lemma binary_round_sign_clear prec emax m e :
  sign_clear (binary_round prec emax false m e).
Proof.
  unfold binary_round. destruct (shl_align _ _ _) as [mz ez].
  apply binary_round_aux_sign_clear.
Qed.

Lemma fmul_self_sign_clear prec emax d : sign_clear (fmul prec emax d d).
Proof.
  destruct d as [s|s| |s m e]; cbn; [by destruct s|by destruct s|done|].
  destruct s; apply binary_round_aux_sign_clear.
Qed.

Lemma fadd_sign_clear prec emax x y :
  sign_clear x → sign_clear y → sign_clear (fadd prec emax x y).
Proof.
  destruct x as [sx|sx| |sx mx ex], y as [sy|sy| |sy my ey];
    cbn; intros Hx Hy; subst; try done.
  destruct (shl_align mx ex (Z.min ex ey)) as [mx' ex'].
  destruct (shl_align my ey (Z.min ex ey)) as [my' ey']. simpl.
  apply binary_round_sign_clear.
Qed.

Lemma fdiv_sign_clear prec emax x y :
  gt_zero x → sign_clear y → sign_clear (fdiv prec emax x y).
Proof.
  intros Hx%gt_zero_sign_clear Hy.
  destruct x as [sx|sx| |sx mx ex], y as [sy|sy| |sy my ey];
    cbn in *; subst; try done.
  destruct (SFdiv_core_binary _ _ _ _ _ _) as [[mz ez] lz].
  apply binary_round_aux_sign_clear.
Qed.

Lemma fsum_keeps_sign prec emax : keeps_sign (fsum prec emax).
Proof.
  intros v. unfold fsum.
  assert (Hz : sign_clear fzero) by done. revert Hz. generalize fzero.
  induction v as [|x v IH]; intros a Ha Hv; [done|].
  apply Forall_cons in Hv as [Hx Hv]. simpl.
  apply IH; [|done]. by apply fadd_sign_clear.
Qed.

(** ** Exact sums *)

Lemma Qsum_nonneg (l : list Q) : Forall (λ x, 0 <= x)%Q l → (0 <= Qsum l)%Q.
Proof.
  induction 1 as [|x l Hx Hl IH]; simpl; [done|].
  replace 0%Q with (0 + 0)%Q by done. by apply Qplus_le_compat.
Qed.

Lemma Qsum_pos (l : list Q) : l ≠ [] → Forall (λ x, 0 < x)%Q l → (0 < Qsum l)%Q.
Proof.
  intros Hne Hall. destruct Hall as [|x l Hx Hl]; [done|]. simpl.
  apply Qlt_le_trans with (x + 0)%Q; [by rewrite Qplus_0_r|].
  apply Qplus_le_r. apply Qsum_nonneg.
  eapply Forall_impl; [exact Hl|]. intros y Hy. by apply Qlt_le_weak.
Qed.

Lemma Qsum_div (l : list Q) (s : Q) :
  (Qsum ((λ x, x / s)%Q <$> l) == Qsum l / s)%Q.
Proof.
  induction l as [|x l IH]; csimpl.
  - unfold Qdiv. by rewrite Qmult_0_l.
  - rewrite IH. unfold Qdiv. by rewrite Qmult_plus_distr_l.
Qed.

Lemma Qsqr_nonneg (d : Q) : (0 <= d * d)%Q.
Proof. unfold Qle, Qmult. simpl. nia. Qed.

Lemma exact_sq_dist_nonneg z c : (0 <= exact_sq_dist z c)%Q.
Proof.
  unfold exact_sq_dist. apply Qsum_nonneg, Forall_fmap, Forall_forall.
  intros [a b] _. simpl. apply Qsqr_nonneg.
Qed.

Lemma exact_kernel_pos z c : (0 < 1 / (1 + exact_sq_dist z c))%Q.
Proof.
  apply Qlt_shift_div_l.
  - apply Qlt_le_trans with (1 + 0)%Q; [done|].
    apply Qplus_le_r, exact_sq_dist_nonneg.
  - rewrite Qmult_0_l. done.
Qed.

Lemma foldl_Qmin_pos x r :
  (0 < x)%Q → Forall (λ y, 0 < y)%Q r → (0 < foldl Qmin x r)%Q.
Proof.
  revert x. induction r as [|y r IH]; intros x Hx Hr; [done|].
  apply Forall_cons in Hr as [Hy Hr]. simpl. apply IH; [|done].
  by apply Q.min_glb_lt.
Qed.

Lemma exact_div_rows_sums (W : list (list Q)) :
  exact_div_rows W (Qsum <$> W)
  = (λ row, (λ x, x / Qsum row)%Q <$> row) <$> W.
Proof.
  unfold exact_div_rows. induction W as [|row W IH]; [done|].
  csimpl. by rewrite IH.
Qed.

Lemma exact_min_pos (t : list (list Q)) :
  t ≠ [] → Forall (λ row, row ≠ []) t → Forall (Forall (λ x, 0 < x)%Q) t →
  ∃ m, exact_min t = Some m ∧ (0 < m)%Q.
Proof.
  intros Ht Hne Hpos. unfold exact_min.
  apply Forall_mjoin in Hpos.
  destruct t as [|row t]; [done|]. apply Forall_cons in Hne as [Hrow _].
  destruct row as [|x row]; [done|]. simpl in *.
  apply Forall_cons in Hpos as [Hx Hr].
  eexists. split; [done|]. by apply foldl_Qmin_pos.
Qed.

(** ** Row sums and signs of the soft assignment *)

Section Rows.
Variables prec emax : Z.
Variable tsum : list spec_float → spec_float.

Lemma div_rows_sign_clear (q : list (list spec_float)) :
  keeps_sign tsum → Forall (Forall gt_zero) q →
  Forall (Forall sign_clear) (div_rows prec emax q (sum1 tsum q)).
Proof.
  intros Hsum Hq. rewrite div_rows_sum1.
  apply Forall_fmap, Forall_forall. intros row Hrow. simpl.
  rewrite Forall_forall in Hq. specialize (Hq row Hrow).
  apply Forall_fmap, Forall_forall. intros x Hx. simpl.
  rewrite Forall_forall in Hq.
  apply fdiv_sign_clear; [by apply Hq|]. apply Hsum.
  apply Forall_forall. intros y Hy. by apply gt_zero_sign_clear, Hq.
Qed.

Lemma exact_q_distribute_rows (zs cs : list (list Q)) :
  zs ≠ [] → cs ≠ [] → broadcastable zs cs →
  ∃ E, exact_q_distribute zs cs = Return E ∧ length E = length zs ∧
       Forall (λ row, length row = length cs ∧ (Qsum row == 1)%Q ∧
                      Forall (λ x, 0 < x)%Q row) E.
Proof.
  intros Hzs Hcs Hb. unfold exact_q_distribute. rewrite decide_True by done.
  assert (Hpos : Forall (Forall (λ x, 0 < x)%Q) (exact_kernel zs cs)).
  { unfold exact_kernel. apply Forall_fmap, Forall_forall. intros z _. simpl.
    apply Forall_fmap, Forall_forall. intros c _. apply exact_kernel_pos. }
  destruct (exact_min_pos (exact_kernel zs cs)) as (m & -> & Hm); [| |done|].
  { unfold exact_kernel. by destruct zs. }
  { unfold exact_kernel. apply Forall_fmap, Forall_forall. intros z _. simpl.
    by destruct cs. }
  simpl. destruct (Qlt_le_dec 0 m) as [_|Hle].
  2:{ exfalso. eapply Qlt_not_le; eauto. }
  eexists. split; [done|]. rewrite exact_div_rows_sums.
  split; [unfold exact_kernel; by rewrite !length_fmap|].
  apply Forall_fmap, Forall_forall. intros row Hrow. simpl.
  assert (Hlen : length row = length cs).
  { unfold exact_kernel in Hrow. apply list_elem_of_fmap in Hrow as (z & -> & _).
    by rewrite length_fmap. }
  rewrite Forall_forall in Hpos. specialize (Hpos row Hrow).
  assert (Hs : (0 < Qsum row)%Q).
  { apply Qsum_pos; [|done]. intros ->. by destruct cs. }
  rewrite length_fmap. split; [done|]. split.
  - rewrite Qsum_div. apply Qmult_inv_r. intros E. rewrite E in Hs.
    by apply Qlt_irrefl in Hs.
  - apply Forall_fmap. eapply Forall_impl; [exact Hpos|].
    intros x Hx. simpl. apply Qlt_shift_div_l; [done|]. by rewrite Qmult_0_l.
Qed.

(** C2 (amended). Let the sum of values without sign bit have none.  When
    [q_distribute] returns, every entry of the kernel matrix is positive,
    the result is the kernel with every row divided by its sum, and no
    entry of the result is negative: each is [+0], positive, [+inf] or
    not a number.  In exact arithmetic, the same lines over the
    rationals, the call returns for every pair of non-empty matrices whose
    rows can be broadcast, every row of the result sums to [1] and every
    entry is strictly positive.  Rounding is what separates the two: a
    quotient can underflow to [0], and the rounded entries of a row need
    not add up to [1] within [1e-6]. *)
Theorem q_distribute_rows (emb centers out : list (list spec_float))
    (zs cs : list (list Q)) :
  keeps_sign tsum →
  (q_distribute prec emax tsum emb centers = Return out →
   let q := kernel prec emax tsum emb centers in
   Forall (Forall gt_zero) q ∧
   out = div_rows prec emax q (sum1 tsum q) ∧
   Forall (Forall sign_clear) out) ∧
  (zs ≠ [] → cs ≠ [] → broadcastable zs cs →
   ∃ E, exact_q_distribute zs cs = Return E ∧ length E = length zs ∧
        Forall (λ row, length row = length cs ∧ (Qsum row == 1)%Q ∧
                       Forall (λ x, 0 < x)%Q row) E).
Proof.
  intros Hsum. split; [|apply exact_q_distribute_rows].
  intros Hret q. unfold q_distribute in Hret.
  destruct (decide (broadcastable emb centers)); [|done].
  simpl in Hret. fold q in Hret.
  destruct (tmin q) as [m|] eqn:Hm; [|done].
  destruct (SFltb fzero m) eqn:Hlt; [|done].
  injection Hret as <-.
  assert (Hq : Forall (Forall gt_zero) q) by (by apply (tmin_gt_zero q m Hm)).
  split; [done|]. split; [done|]. by apply div_rows_sign_clear.
Qed.

End Rows.

(** ** Concrete runs of the tensor functions *)

(** C7 as stated fails: the call also fails where the kernel has no
    non-positive entry, because it has no entry at all.  Without samples
    [min()] raises, and a sample of two coordinates cannot be subtracted
    from a center of three. *)
Lemma q_distribute_no_sample :
  (kernel 24 128 (fsum 24 128) [] [[fzero]] = [] ∧
   q_distribute32 [] [[fzero]] = Raise RuntimeError) ∧
  q_distribute32 [[f32 1 0; f32 1 1]] [[f32 1 0; f32 1 1; f32 3 0]]
  = Raise RuntimeError.
Proof. repeat split; reflexivity. Qed.

Lemma target_distribution_empty_cluster_witness :
  ∃ P, target_distribution32 [[fzero; f32 1 0]; [fzero; f32 1 0]] = Return P ∧
       length P = 2%nat ∧
       ∀ i row, P !! i = Some row → row !! 0%nat = Some S754_nan.
Proof.
  apply (target_distribution_empty_cluster 24 128 (fsum 24 128)
           (fsum_propagates 24 128)
           [[fzero; f32 1 0]; [fzero; f32 1 0]] 0).
  - repeat constructor.
  - simpl. lia.
  - exists false. vm_compute. reflexivity.
Defined.

(** C5 as stated fails: with an empty first cluster the call returns, and
    what it returns is NaN throughout. *)
Lemma target_distribution_returns_nan :
  target_distribution32 [[fzero; f32 1 0]] = Return [[S754_nan; S754_nan]].
Proof. vm_compute. reflexivity. Qed.

(** C9 as stated fails: the sharpened 3 by 3 matrix of thirds is uniform,
    one unit in the last place below a third.  (Three equal summands add
    up the same way in any order.) *)
Lemma target_distribution_thirds :
  third = S754_finite false 11184811 (-25) ∧
  target_distribution32 (uniform 3 3 third)
  = Return (uniform 3 3 (S754_finite false 11184810 (-25))).
Proof. split; vm_compute; reflexivity. Qed.

(** A finite embedding can fail the assertion: the squared distance
    overflows, the kernel entry is [0]. *)
Lemma q_distribute_overflow :
  kernel 24 128 (fsum 24 128) [[f32 1 64]] [[fzero]] = [[fzero]] ∧
  q_distribute32 [[f32 1 64]] [[fzero]] = Raise AssertionError.
Proof. split; vm_compute; reflexivity. Qed.

(** For the 10 by 3 matrix of thirds the rounded value follows the order
    in which the column sums are accumulated, which is the library's: a
    sum accumulated from left to right gives a third back, a sum rounded
    once from the exact one gives its neighbour below. *)
Lemma target_distribution_thirds_10 :
  sharpened 24 128 (fsum 24 128) 10 3 third = third ∧
  sharpened 24 128
    (λ v, if decide (length v = 10%nat)
          then binary_round 24 128 false 111848110 (-25)
          else fsum 24 128 v) 10 3 third
  = S754_finite false 11184810 (-25).
Proof. split; vm_compute; reflexivity. Qed.

(** C2 as stated fails in [torch.float16].  With 1024 centers on the
    sample and one at distance 255 the assertion passes and the last entry
    of the result is [0]: the kernel entry is positive, its quotient by
    the row sum underflows.  With 11 centers on the sample every entry is
    [1/11] rounded, [1489 * 2^-14], and the row adds up to [1 - 5/16384],
    more than [1e-6] away from [1]. *)
Lemma q_distribute_underflow :
  (∃ row, q_distribute 11 16 (fsum 11 16) [[fzero]]
            (replicate 1024 [fzero] ++ [[f16 255 0]]) = Return [row] ∧
          row !! 1024%nat = Some fzero) ∧
  (∃ row, q_distribute 11 16 (fsum 11 16) [[fzero]] (replicate 11 [fzero])
          = Return [row] ∧
          row = replicate 11 (f16 1489 (-14)) ∧
          (Qsum (to_Q <$> row) == 1 - (5 # 16384))%Q ∧
          (1 # 1000000 < 5 # 16384)%Q).
Proof.
  split; eexists; (split; [vm_compute; reflexivity|]).
  - reflexivity.
  - split; [vm_compute; reflexivity|]. split; vm_compute; reflexivity.
Qed.

Lemma q_distribute_rows_witness :
  let emb := [[f32 1 0; f32 1 1]; [fzero; f32 3 0]] in
  let centers := [[f32 1 0; f32 1 1]; [fzero; fzero]] in
  (∃ out, q_distribute32 emb centers = Return out ∧
          Forall (Forall sign_clear) out) ∧
  ∃ E, exact_q_distribute [[1; 2]; [0; 3]]%Q [[1; 2]; [0; 0]]%Q = Return E ∧
       Forall (λ row, (Qsum row == 1)%Q ∧ Forall (λ x, 0 < x)%Q row) E.
Proof.
  intros emb centers. split.
  - eexists. split; [vm_compute; reflexivity|].
    apply (q_distribute_rows 24 128 (fsum 24 128) emb centers _ [] []
             (fsum_keeps_sign 24 128)).
    vm_compute. reflexivity.
  - destruct (q_distribute_rows 24 128 (fsum 24 128) emb centers []
                [[1; 2]; [0; 3]]%Q [[1; 2]; [0; 0]]%Q
                (fsum_keeps_sign 24 128)) as [_ H].
    destruct H as (E & HE & _ & Hrows); [done|done|repeat constructor|].
    exists E. split; [done|]. eapply Forall_impl; [exact Hrows|].
    by intros row (_ & ? & ?).
Defined.

Lemma target_distribution_uniform_witness :
  ∃ E, exact_target_distribution (uniform 10 3 (1 # 3)%Q) = Return E ∧
       Forall2 (Forall2 Qeq) E (uniform 10 3 (1 # 3)%Q).
Proof.
  destruct (target_distribution_uniform 24 128 (fsum 24 128) 10 3 third (1 # 3))
    as [_ H].
  destruct H as (E & HE & _ & Hfix); [lia|lia|done|].
  exists E. split; [done|]. by apply Hfix.
Defined.

Lemma q_distribute_empty_witness :
  q_distribute32 [[f32 1 0; f32 1 1]] [] = Raise RuntimeError
  ↔ [[f32 1 0; f32 1 1]] = [] ∨ @nil (list spec_float) = [].
Proof.
  apply (q_distribute_empty 24 128 (fsum 24 128) [[f32 1 0; f32 1 1]] [] 2).
  - repeat constructor.
  - constructor.
Defined.

Lemma q_distribute_shape_witness :
  let emb := [[f32 1 0; f32 1 1]; [fzero; f32 3 0]; [fzero; fzero]] in
  let centers := [[f32 1 0; f32 1 1]; [fzero; fzero]] in
  let q := kernel 24 128 (fsum 24 128) emb centers in
  let Q := div_rows 24 128 q (sum1 (fsum 24 128) q) in
  length Q = 3%nat ∧ Forall (λ row, length row = 2%nat) Q.
Proof.
  intros emb centers q Q.
  apply (q_distribute_shape 24 128 (fsum 24 128) emb centers Q).
  vm_compute. reflexivity.
Defined.

Lemma target_distribution_shape_witness :
  ∃ P, target_distribution32
         [[f32 1 (-1); f32 1 (-1)]; [f32 1 (-2); f32 3 (-2)]; [f32 1 0; fzero]]
       = Return P ∧
       length P = 3%nat ∧ Forall (λ row, length row = 2%nat) P.
Proof.
  apply (target_distribution_shape 24 128 (fsum 24 128)
           [[f32 1 (-1); f32 1 (-1)]; [f32 1 (-2); f32 3 (-2)]; [f32 1 0; fzero]]).
  repeat constructor.
Defined.

Lemma q_distribute_nonfinite_witness :
  q_distribute32 [[f32 1 0; f32 1 1]; [S754_infinity false; fzero]]
                 [[fzero; fzero]; [f32 1 0; f32 1 0]] = Raise AssertionError.
Proof.
  apply (q_distribute_nonfinite 24 128 (fsum 24 128)
           [[f32 1 0; f32 1 1]; [S754_infinity false; fzero]]
           [[fzero; fzero]; [f32 1 0; f32 1 0]] 2).
  - apply fsum_propagates.
  - repeat constructor.
  - repeat constructor.
  - discriminate.
  - discriminate.
  - exists [S754_infinity false; fzero], (S754_infinity false).
    split; [left; right; left|]. split; [left|]. right. by exists false.
Defined.

Lemma target_distribution_nan_witness :
  ∃ P, target_distribution32 [[f32 1 (-1); S754_nan]; [f32 1 (-2); f32 3 (-2)]]
       = Return P ∧
       length P = 2%nat ∧
       Forall (λ row, length row = 2%nat ∧ Forall (λ x, x = S754_nan) row) P.
Proof.
  apply (target_distribution_nan 24 128 (fsum 24 128)
           [[f32 1 (-1); S754_nan]; [f32 1 (-2); f32 3 (-2)]]).
  - apply fsum_propagates_nan.
  - repeat constructor.
  - exists [f32 1 (-1); S754_nan]. split; [left|right; left].
Defined.
